(** * Verification of the paradox-logo generator

    A shallow embedding of [scripts/generate-paradox-logo.py] and the proofs
    of its specified properties.

    Numbers.  The script computes on Python floats.  They are embedded as
    the real numbers of the Standard Library, and the functions of the
    [math] module as their mathematical counterparts ([sin], [cos], [sqrt],
    [acos], and [atan2] defined from [atan] by quadrant).  Rounding is not
    modelled: every statement below is about exact arithmetic.

    Errors.  Python operations that can raise are embedded in an error
    monad: float division ([ZeroDivisionError]), [math.sqrt] and
    [math.acos] outside their domain ([ValueError]), list indexing
    ([IndexError]) and [assert] ([AssertionError] with its message).
    Divisions whose divisor is a nonzero literal or module constant
    (5.5, 9.0, 2, 7200) are written with the total division of [R]. *)

From Stdlib Require Import Reals Lra Lia List String Ascii ZArith Bool.
From Stdlib Require Import DecimalString Sorted Permutation.
From stdpp Require Import base gmap.
Import ListNotations.

Local Open Scope R_scope.

(** ** Python exceptions and the error monad *)

Inductive exn : Type :=
| ZeroDivisionError
| ValueError
| IndexError
| AssertionError (msg : string).

Inductive res (A : Type) : Type :=
| Ok (a : A)
| Raise (e : exn).

Arguments Ok {A} a.
Arguments Raise {A} e.

Definition bind {A B : Type} (m : res A) (k : A -> res B) : res B :=
  match m with
  | Ok a => k a
  | Raise e => Raise e
  end.

Notation "x <- m ;; k" := (bind m (fun x => k))
  (at level 100, m at next level, right associativity).

(** [for x in l: acc = body(acc, x)] where the body can raise. *)
Fixpoint foldM {A B : Type} (body : B -> A -> res B) (l : list A) (acc : B)
  : res B :=
  match l with
  | [] => Ok acc
  | x :: l' => acc' <- body acc x ;; foldM body l' acc'
  end.

(** A list comprehension whose element expression can raise. *)
Fixpoint mapM {A B : Type} (f : A -> res B) (l : list A) : res (list B) :=
  match l with
  | [] => Ok []
  | x :: l' => y <- f x ;; ys <- mapM f l' ;; Ok (y :: ys)
  end.

(** Python integers are embedded as [Z].  [range(n)]: *)
Definition range (n : Z) : list Z :=
  map Z.of_nat (seq 0 (Z.to_nat n)).

(** [range(lo, hi)]. *)
Definition range_from (lo hi : Z) : list Z :=
  map (fun k => lo + Z.of_nat k)%Z (seq 0 (Z.to_nat (hi - lo))).

(** [enumerate(l)]. *)
Definition enumerate {A : Type} (l : list A) : list (Z * A) :=
  combine (range (Z.of_nat (length l))) l.

(** [l[i]]; a negative index counts from the end. *)
Definition index {A : Type} (l : list A) (i : Z) : res A :=
  let j := if (i <? 0)%Z then (Z.of_nat (length l) + i)%Z else i in
  if (j <? 0)%Z then Raise IndexError
  else match l !! Z.to_nat j with
       | Some x => Ok x
       | None => Raise IndexError
       end.

(** ** Float operations *)

Definition Rltb (x y : R) : bool := if Rlt_dec x y then true else false.

Definition py_div (x y : R) : res R :=
  if Req_dec_T y 0 then Raise ZeroDivisionError else Ok (x / y).

Definition py_sqrt (x : R) : res R :=
  if Rlt_dec x 0 then Raise ValueError else Ok (sqrt x).

Definition py_acos (x : R) : res R :=
  if Rlt_dec x (-1) then Raise ValueError
  else if Rlt_dec 1 x then Raise ValueError
  else Ok (acos x).

(** [a % m] on floats, for a positive modulus: the result has the sign of
    the modulus, that is [a - m * floor (a / m)]. *)
Definition py_mod (a m : R) : R :=
  a - m * IZR (Int_part (a / m)).

(** [math.atan2 y x]: the angle of the point [(x, y)], in (-pi, pi]. *)
Definition atan2 (y x : R) : R :=
  if Rlt_dec 0 x then atan (y / x)
  else if Rlt_dec x 0 then
    if Rle_dec 0 y then atan (y / x) + PI else atan (y / x) - PI
  else if Rlt_dec 0 y then PI / 2
  else if Rlt_dec y 0 then - (PI / 2)
  else 0.

(** ** Sorting

    [list.sort] and [sorted] are stable; on a list they return the one
    stable ordering, which insertion from the right computes. *)

Fixpoint insert_by {A : Type} (lt : A -> A -> bool) (x : A) (l : list A)
  : list A :=
  match l with
  | [] => [x]
  | y :: l' => if lt y x then y :: insert_by lt x l' else x :: l
  end.

Fixpoint stable_sort {A : Type} (lt : A -> A -> bool) (l : list A) : list A :=
  match l with
  | [] => []
  | x :: l' => insert_by lt x (stable_sort lt l')
  end.

(** [x] may stay before [y] in a list sorted by [lt]: [y] is not less
    than [x]. *)
Definition not_after {A : Type} (lt : A -> A -> bool) (x y : A) : Prop :=
  lt y x = false.

(** The order of Python on pairs of floats. *)
Definition pair_ltb (p q : R * R) : bool :=
  Rltb (fst p) (fst q)
  || ((if Req_dec_T (fst p) (fst q) then true else false)
      && Rltb (snd p) (snd q)).

(** ** Formatting *)

Definition nl : string := String (ascii_of_nat 10) EmptyString.
Definition dq : string := String (ascii_of_nat 34) EmptyString.

Definition str_of_N (n : N) : string :=
  NilZero.string_of_uint (N.to_uint n).

(** Round a non-negative real to the nearest integer, ties to even. *)
Definition round_half_even (x : R) : Z :=
  let f := Int_part x in
  let r := x - IZR f in
  if Rlt_dec r (1 / 2) then f
  else if Rlt_dec (1 / 2) r then (f + 1)%Z
  else if Z.even f then f else (f + 1)%Z.

Definition pad3 (n : N) : string :=
  let s := str_of_N n in
  if (n <? 10)%N then ("00" ++ s)%string
  else if (n <? 100)%N then ("0" ++ s)%string
  else s.

(** The format [{x:.3f}]. *)
Definition format_3f (x : R) : string :=
  let q := Z.to_N (round_half_even (Rabs x * 1000)) in
  ((if Rlt_dec x 0 then "-" else "")
     ++ str_of_N (q / 1000) ++ "." ++ pad3 (q mod 1000))%string.

(** [sep.join(l)]. *)
Fixpoint join (sep : string) (l : list string) : string :=
  match l with
  | [] => EmptyString
  | [s] => s
  | s :: l' => (s ++ sep ++ join sep l')%string
  end.

(** ** Parameters *)

Definition SIZE : Z := 24.
Definition CX : R := 12.
Definition CY : R := 12.

Definition A_RX : R := 9.0.
Definition A_RY : R := 5.5.
Definition B_RX : R := 5.5.
Definition B_RY : R := 9.0.

Definition THICKNESS : R := 2.2.
Definition GAP_MARGIN : R := 0.4.
Definition ARC_SAMPLES : Z := 60.

(** ** Geometry helpers *)

Definition ellipse_tangent_speed (rx ry t : R) : res R :=
  let dx := - rx * sin t in
  let dy := ry * cos t in
  py_sqrt (dx * dx + dy * dy).

Definition ellipse_tangent (rx ry t : R) : res (R * R) :=
  let dx := - rx * sin t in
  let dy := ry * cos t in
  mag <- py_sqrt (dx * dx + dy * dy) ;;
  ux <- py_div dx mag ;;
  uy <- py_div dy mag ;;
  Ok (ux, uy).

Definition normalize_angle (a : R) : R :=
  let a := py_mod a (2 * PI) in
  if Rlt_dec a 0 then a + 2 * PI else a.

(** ** Intersection finder *)

(** One iteration of the sampling loop of [find_crossings], [N] samples
    per revolution. *)
Definition crossing_step (N : Z) (crossings : list (R * R)) (i : Z)
  : list (R * R) :=
  let ta := 2 * PI * IZR i / IZR N in
  let xa := A_RX * cos ta in
  let ya := A_RY * sin ta in
  let cb := xa / B_RX in
  let sb := ya / B_RY in
  if Rltb 1.0 (Rabs cb) || Rltb 1.0 (Rabs sb) then crossings
  else
    let r2 := cb * cb + sb * sb in
    if Rltb (Rabs (r2 - 1.0)) 0.003 then
      let tb := atan2 sb cb in
      if existsb (fun c => Rltb (Rabs (ta - fst c)) 0.05) crossings
      then crossings
      else crossings ++ [(ta, tb)]
    else crossings.

Definition find_crossings : list (R * R) :=
  let N := 7200%Z in
  let crossings := fold_left (crossing_step N) (range N) [] in
  stable_sort pair_ltb crossings.

(** ** Gap calculator *)

Definition crossing_gap_half (ta tb : R) (under_is_a : bool) : res R :=
  tA <- ellipse_tangent A_RX A_RY ta ;;
  tB <- ellipse_tangent B_RX B_RY tb ;;
  let dot := Rabs (fst tA * fst tB + snd tA * snd tB) in
  cross_angle <- py_acos (Rmin dot 1.0) ;;
  let sin_cross :=
    if Rlt_dec 0.01 cross_angle then sin cross_angle else 0.01 in
  projected_width <- py_div THICKNESS sin_cross ;;
  speed <- (if under_is_a
            then ellipse_tangent_speed A_RX A_RY ta
            else ellipse_tangent_speed B_RX B_RY tb) ;;
  py_div (projected_width / 2 + GAP_MARGIN) speed.

(** ** Outline of one annular arc *)

Definition arc_points (cx cy rx ry t_from t_to : R) (samples : Z)
  : res (list (R * R)) :=
  mapM (fun i =>
          q <- py_div ((t_to - t_from) * IZR i) (IZR samples) ;;
          let t := t_from + q in
          Ok (cx + rx * cos t, cy + ry * sin t))
       (range (samples + 1)).

Definition arc_path_annulus (cx cy rx ry thickness t_start t_end : R)
    (samples : Z) : res string :=
  let half := thickness / 2 in
  let outer_rx := rx + half in
  let outer_ry := ry + half in
  let inner_rx := rx - half in
  let inner_ry := ry - half in
  outer <- arc_points cx cy outer_rx outer_ry t_start t_end samples ;;
  inner <- arc_points cx cy inner_rx inner_ry t_end t_start samples ;;
  let pts := outer ++ inner in
  p0 <- index pts 0 ;;
  let d := ("M" ++ format_3f (fst p0) ++ "," ++ format_3f (snd p0))%string in
  let d :=
    fold_left
      (fun d p =>
         (d ++ " L" ++ format_3f (fst p) ++ "," ++ format_3f (snd p))%string)
      (skipn 1 pts) d in
  Ok (d ++ "Z")%string.

(** ** The pipeline: [generate_svg] *)

(** The over/under pattern, by crossing index. *)
Definition a_on_top : list bool := [true; false; true; false].

(** The loop that fills the two dictionaries of gap half-angles. *)
Definition gap_step (st : gmap Z R * gmap Z R) (e : Z * (R * R))
  : res (gmap Z R * gmap Z R) :=
  let a_gap_halves := fst st in
  let b_gap_halves := snd st in
  let ci := fst e in
  let ta := fst (snd e) in
  let tb := snd (snd e) in
  top <- index a_on_top ci ;;
  if negb top then
    g <- crossing_gap_half ta tb true ;;
    Ok (<[ci := g]> a_gap_halves, b_gap_halves)
  else
    g <- crossing_gap_half ta tb false ;;
    Ok (a_gap_halves, <[ci := g]> b_gap_halves).

Definition gap_halves (crossings : list (R * R))
  : res (gmap Z R * gmap Z R) :=
  foldM gap_step (enumerate crossings) (∅, ∅).

(** [sorted(range(4), key=lambda k: cross_angles[k])]: the keys are computed
    first, then the indices are sorted stably by key. *)
Definition sorted_indices (cross_angles : list R) : res (list Z) :=
  keys <- mapM (fun k => index cross_angles k) (range 4) ;;
  Ok (map snd
        (stable_sort (fun p q => Rltb (fst p) (fst q))
                     (combine keys (range 4)))).

(** An arc segment: start parameter, end parameter, rank. *)
Definition segment : Type := R * R * Z.

(** The first half of one iteration of the loop that builds the segments
    of a ring: the start crossing of arc [idx] and the arc's two ends after
    the wrap past 2 pi and both gap retractions. *)
Definition retracted_arc (cross_angles : list R) (sorted : list Z)
    (gaps : gmap Z R) (idx : Z) : res (Z * (R * R)) :=
  ci_start <- index sorted idx ;;
  ci_end <- index sorted ((idx + 1) mod 4)%Z ;;
  t_start <- index cross_angles ci_start ;;
  t_end <- index cross_angles ci_end ;;
  let t_end := if Rle_dec t_end t_start then t_end + 2 * PI else t_end in
  let t_start :=
    match gaps !! ci_start with Some g => t_start + g | None => t_start end in
  let t_end :=
    match gaps !! ci_end with Some g => t_end - g | None => t_end end in
  Ok (ci_start, (t_start, t_end)).

(** One iteration of that loop.  The loops of ring A and of ring B are the
    same but for the rank, given here by [rank] from [a_on_top[ci_start]]. *)
Definition segment_step (rank : bool -> Z) (cross_angles : list R)
    (sorted : list Z) (gaps : gmap Z R)
    (segments : list segment) (idx : Z) : res (list segment) :=
  arc <- retracted_arc cross_angles sorted gaps idx ;;
  let ci_start := fst arc in
  let t_start := fst (snd arc) in
  let t_end := snd (snd arc) in
  if Rle_dec t_end t_start then Ok segments
  else
    top <- index a_on_top ci_start ;;
    Ok (segments ++ [(t_start, t_end, rank top)]).

Definition ring_segments (rank : bool -> Z) (cross_angles : list R)
    (gaps : gmap Z R) : res (list segment) :=
  sorted <- sorted_indices cross_angles ;;
  foldM (segment_step rank cross_angles sorted gaps) (range 4) [].

Definition a_rank (top : bool) : Z := if top then 2 else 0.
Definition b_rank (top : bool) : Z := if top then 0 else 2.

Definition a_segments (crossings : list (R * R)) (a_gap_halves : gmap Z R)
  : res (list segment) :=
  let a_cross_angles := map (fun c => normalize_angle (fst c)) crossings in
  ring_segments a_rank a_cross_angles a_gap_halves.

Definition b_segments (crossings : list (R * R)) (b_gap_halves : gmap Z R)
  : res (list segment) :=
  let b_cross_angles := map (fun c => normalize_angle (snd c)) crossings in
  ring_segments b_rank b_cross_angles b_gap_halves.

(** The loops that append the path of every segment of a ring. *)
Definition path_step (rx ry : R) (all_paths : list (Z * string))
    (s : segment) : res (list (Z * string)) :=
  let t_start := fst (fst s) in
  let t_end := snd (fst s) in
  let z := snd s in
  d <- arc_path_annulus CX CY rx ry THICKNESS t_start t_end ARC_SAMPLES ;;
  Ok (all_paths ++ [(z, d)]).

Definition rank_ltb (p q : Z * string) : bool := (fst p <? fst q)%Z.

Definition all_paths (a_segs b_segs : list segment)
  : res (list (Z * string)) :=
  ps <- foldM (path_step A_RX A_RY) a_segs [] ;;
  ps <- foldM (path_step B_RX B_RY) b_segs ps ;;
  Ok (stable_sort rank_ltb ps).

Definition svg_header : string :=
  ("<svg xmlns=" ++ dq ++ "http://www.w3.org/2000/svg" ++ dq
   ++ " width=" ++ dq ++ "24" ++ dq ++ " height=" ++ dq ++ "24" ++ dq
   ++ " viewBox=" ++ dq ++ "0 0 24 24" ++ dq
   ++ " fill=" ++ dq ++ "none" ++ dq ++ ">")%string.

Definition path_line (p : Z * string) : string :=
  ("  <path d=" ++ dq ++ snd p ++ dq
   ++ " fill=" ++ dq ++ "#000000" ++ dq ++ "/>")%string.

Definition svg_lines (paths : list (Z * string)) : list string :=
  [svg_header] ++ map path_line paths ++ ["</svg>"%string] ++ [""%string].

Definition str_of_Z (n : Z) : string :=
  NilZero.string_of_int (Z.to_int n).

(** The body of [generate_svg] from the result of [find_crossings] on. *)
Definition generate_svg_from (crossings : list (R * R)) : res string :=
  let n := Z.of_nat (length crossings) in
  if negb (n =? 4)%Z then
    Raise (AssertionError ("Expected 4 crossings, got " ++ str_of_Z n)%string)
  else
    gaps <- gap_halves crossings ;;
    a_segs <- a_segments crossings (fst gaps) ;;
    b_segs <- b_segments crossings (snd gaps) ;;
    paths <- all_paths a_segs b_segs ;;
    Ok (join nl (svg_lines paths)).

Definition generate_svg : res string :=
  generate_svg_from find_crossings.

(** ** Predicates of the statements *)

(** An arc segment that is neither empty nor inverted. *)
Definition proper (s : segment) : Prop := fst (fst s) < snd (fst s).

(** The rank of a shape drawn behind, and of one drawn in front. *)
Definition BACK : Z := 0.
Definition FRONT : Z := 2.

(** The implicit equation of an ellipse of radii [rx] and [ry] centred at
    the origin, evaluated at the point [(x, y)]: the point is on the
    ellipse when the value is 1. *)
Definition implicit (rx ry x y : R) : R :=
  (x / rx) * (x / rx) + (y / ry) * (y / ry).

(** The parameter on A of sample [i] out of [N], and the crossing that the
    sampling loop records when it accepts that sample. *)
Definition sample_angle (N i : Z) : R := 2 * PI * IZR i / IZR N.

Definition sample_crossing (N i : Z) : R * R :=
  let ta := sample_angle N i in
  (ta, atan2 (A_RY * sin ta / B_RY) (A_RX * cos ta / B_RX)).

(** The start of an arc advanced, and its end retracted, by the gap of the
    crossing [ci] when the ring has one there. *)
Definition advanced (gaps : gmap Z R) (ci : Z) (t : R) : R :=
  match gaps !! ci with Some g => t + g | None => t end.

Definition retracted (gaps : gmap Z R) (ci : Z) (t : R) : R :=
  match gaps !! ci with Some g => t - g | None => t end.

(** ** The gap formula as the specification words it

    Section 4.3 of the specification: the projected width
    thickness / sin(theta), the margin added to it, the sum halved, then
    divided by the tangent speed of the under-band. *)
Definition spec_gap_half (thickness margin theta speed : R) : R :=
  (thickness / sin theta + margin) / 2 / speed.

(** * Proofs *)

(** ** The error monad and the float comparisons *)

Lemma bind_Ok {A B : Type} (m : res A) (k : A -> res B) (b : B) :
  bind m k = Ok b -> exists a, m = Ok a /\ k a = Ok b.
Proof.
  destruct m as [a|e]; simpl; intros H; [eauto | discriminate].
Qed.

Lemma Rltb_true (x y : R) : Rltb x y = true <-> x < y.
Proof. unfold Rltb. destruct (Rlt_dec x y); split; auto; discriminate. Qed.

Lemma Rltb_false (x y : R) : Rltb x y = false <-> y <= x.
Proof.
  unfold Rltb. destruct (Rlt_dec x y); split; auto; try discriminate; lra.
Qed.

Lemma py_div_Ok (x y : R) : y <> 0 -> py_div x y = Ok (x / y).
Proof. intros H. unfold py_div. destruct (Req_dec_T y 0); tauto. Qed.

Lemma py_sqrt_Ok (x : R) : 0 <= x -> py_sqrt x = Ok (sqrt x).
Proof.
  intros H. unfold py_sqrt. destruct (Rlt_dec x 0); [lra | reflexivity].
Qed.

Lemma py_acos_Ok (x : R) : -1 <= x <= 1 -> py_acos x = Ok (acos x).
Proof.
  intros H. unfold py_acos.
  destruct (Rlt_dec x (-1)); [lra|]. destruct (Rlt_dec 1 x); [lra|reflexivity].
Qed.

(** ** Bounds on pi and on the sine *)

Lemma PI_estimate : 3.14159 < PI < 3.1416.
Proof.
  pose proof (PI_2_3_7_ineq 2) as [Hlo Hhi].
  unfold sum_f_R0, tg_alt, PI_2_3_7_tg, Ratan_seq in Hlo, Hhi.
  simpl in Hlo, Hhi.
  split; lra.
Qed.

Lemma fact_IZR (n : nat) : INR (fact n) = IZR (Z.of_nat (fact n)).
Proof. apply INR_IZR_INZ. Qed.

Lemma sin_lb_poly (x : R) :
  sin_lb x = x - x ^ 3 / 6 + x ^ 5 / 120 - x ^ 7 / 5040.
Proof.
  unfold sin_lb, sin_approx, sum_f_R0, sin_term.
  rewrite !fact_IZR.
  change (IZR (Z.of_nat (fact (2 * 0 + 1)))) with 1.
  change (IZR (Z.of_nat (fact (2 * 1 + 1)))) with 6.
  change (IZR (Z.of_nat (fact (2 * 2 + 1)))) with 120.
  change (IZR (Z.of_nat (fact (2 * 3 + 1)))) with 5040.
  simpl. field.
Qed.

Lemma sin_ub_poly (x : R) :
  sin_ub x
  = x - x ^ 3 / 6 + x ^ 5 / 120 - x ^ 7 / 5040 + x ^ 9 / 362880.
Proof.
  unfold sin_ub, sin_approx, sum_f_R0, sin_term.
  rewrite !fact_IZR.
  change (IZR (Z.of_nat (fact (2 * 0 + 1)))) with 1.
  change (IZR (Z.of_nat (fact (2 * 1 + 1)))) with 6.
  change (IZR (Z.of_nat (fact (2 * 2 + 1)))) with 120.
  change (IZR (Z.of_nat (fact (2 * 3 + 1)))) with 5040.
  change (IZR (Z.of_nat (fact (2 * 4 + 1)))) with 362880.
  simpl. field.
Qed.

Lemma sin_above (y lo : R) :
  0 <= lo -> lo <= y -> y <= PI / 2 -> sin_lb lo <= sin y.
Proof.
  intros H0 Hlo Hy. pose proof PI_RGT_0.
  destruct (SIN lo) as [Hlb _]; [lra..|].
  apply Rle_trans with (sin lo); [exact Hlb|].
  apply sin_incr_1; lra.
Qed.

Lemma sin_below (y hi : R) :
  0 <= y -> y <= hi -> hi <= PI / 2 -> sin y <= sin_ub hi.
Proof.
  intros H0 Hhi Hy. pose proof PI_RGT_0.
  destruct (SIN hi) as [_ Hub]; [lra..|].
  apply Rle_trans with (sin hi); [|exact Hub].
  apply sin_incr_1; lra.
Qed.

(** ** Curve model *)

Section Ellipse.

Variables rx ry : R.
Hypothesis rx_pos : 0 < rx.
Hypothesis ry_pos : 0 < ry.

(** The squared speed never vanishes: the radii are positive and sine and
    cosine have no common zero. *)
Lemma tangent_sq_pos (t : R) :
  0 < - rx * sin t * (- rx * sin t) + ry * cos t * (ry * cos t).
Proof.
  pose proof (sin2_cos2 t) as Hsc. unfold Rsqr in Hsc.
  assert (Hs : 0 <= sin t * sin t) by nra.
  assert (Hc : 0 <= cos t * cos t) by nra.
  assert (Hx : 0 < rx * rx) by nra.
  assert (Hy : 0 < ry * ry) by nra.
  destruct (Rle_dec (1 / 2) (sin t * sin t)) as [Hh|Hh].
  - assert (0 < rx * rx * (sin t * sin t)) by nra.
    assert (0 <= ry * ry * (cos t * cos t)) by nra.
    nra.
  - assert (0 < ry * ry * (cos t * cos t)) by nra.
    assert (0 <= rx * rx * (sin t * sin t)) by nra.
    nra.
Qed.

Lemma ellipse_tangent_speed_eq (t : R) :
  ellipse_tangent_speed rx ry t
  = Ok (sqrt (- rx * sin t * (- rx * sin t) + ry * cos t * (ry * cos t))).
Proof.
  unfold ellipse_tangent_speed. apply py_sqrt_Ok.
  pose proof (tangent_sq_pos t). lra.
Qed.

Lemma ellipse_tangent_speed_pos (t : R) :
  exists speed, ellipse_tangent_speed rx ry t = Ok speed /\ 0 < speed.
Proof.
  eexists. split; [apply ellipse_tangent_speed_eq|].
  apply sqrt_lt_R0, tangent_sq_pos.
Qed.

Lemma ellipse_tangent_eq (t : R) :
  let mag :=
    sqrt (- rx * sin t * (- rx * sin t) + ry * cos t * (ry * cos t)) in
  ellipse_tangent rx ry t = Ok (- rx * sin t / mag, ry * cos t / mag).
Proof.
  intros mag. unfold ellipse_tangent.
  assert (Hm : 0 < mag) by apply sqrt_lt_R0, tangent_sq_pos.
  rewrite py_sqrt_Ok by (pose proof (tangent_sq_pos t); lra).
  simpl. fold mag.
  rewrite !py_div_Ok by lra. reflexivity.
Qed.


End Ellipse.

(** ** Gap calculator *)

Lemma A_RX_pos : 0 < A_RX. Proof. unfold A_RX; lra. Qed.
Lemma A_RY_pos : 0 < A_RY. Proof. unfold A_RY; lra. Qed.
Lemma B_RX_pos : 0 < B_RX. Proof. unfold B_RX; lra. Qed.
Lemma B_RY_pos : 0 < B_RY. Proof. unfold B_RY; lra. Qed.


Create HintDb radii.
#[local] Hint Resolve A_RX_pos A_RY_pos B_RX_pos B_RY_pos : radii.

(** The clamped absolute dot product is in the domain of the inverse
    cosine, and its angle is in the first quadrant. *)
Lemma clamp_range (d : R) : 0 <= Rmin (Rabs d) 1.0 <= 1.
Proof.
  pose proof (Rabs_pos d).
  unfold Rmin. destruct (Rle_dec (Rabs d) 1.0); lra.
Qed.

Lemma acos_first_quadrant (x : R) : 0 <= x <= 1 -> 0 <= acos x <= PI / 2.
Proof.
  intros Hx. pose proof (acos_bound x) as [Hlo Hhi].
  split; [exact Hlo|].
  pose proof PI_RGT_0.
  apply (cos_decr_0 (PI / 2) (acos x)); try lra.
  rewrite cos_PI2, cos_acos; lra.
Qed.

(** The sine that divides the thickness is bounded away from zero on both
    branches: above the floor the angle is between 0.01 and a right angle,
    where the sine increases. *)
Lemma sin_cross_lower (cross_angle : R) :
  0 <= cross_angle <= PI / 2 ->
  0.0099 <= (if Rlt_dec 0.01 cross_angle then sin cross_angle else 0.01).
Proof.
  intros H. pose proof PI_RGT_0.
  destruct (Rlt_dec 0.01 cross_angle) as [Hgt|_]; [|lra].
  apply Rle_trans with (sin_lb 0.01).
  - rewrite sin_lb_poly. lra.
  - apply sin_above; lra.
Qed.

Lemma sin_cross_pos (cross_angle : R) :
  0 <= cross_angle <= PI / 2 ->
  0 < (if Rlt_dec 0.01 cross_angle then sin cross_angle else 0.01).
Proof. intros H. pose proof (sin_cross_lower cross_angle H). lra. Qed.

(** The value of [crossing_gap_half], from the values of its calls. *)
Lemma crossing_gap_half_eq (ta tb : R) (under_is_a : bool)
    (tA tB : R * R) (speed : R) :
  ellipse_tangent A_RX A_RY ta = Ok tA ->
  ellipse_tangent B_RX B_RY tb = Ok tB ->
  (if under_is_a then ellipse_tangent_speed A_RX A_RY ta
   else ellipse_tangent_speed B_RX B_RY tb) = Ok speed ->
  0 < speed ->
  let cross_angle :=
    acos (Rmin (Rabs (fst tA * fst tB + snd tA * snd tB)) 1.0) in
  let sin_cross :=
    if Rlt_dec 0.01 cross_angle then sin cross_angle else 0.01 in
  crossing_gap_half ta tb under_is_a
  = Ok ((THICKNESS / sin_cross / 2 + GAP_MARGIN) / speed).
Proof.
  intros HA HB Hs Hpos cross_angle sin_cross.
  unfold crossing_gap_half. rewrite HA, HB. cbn [bind].
  pose proof (clamp_range (fst tA * fst tB + snd tA * snd tB)) as Hc.
  rewrite py_acos_Ok by lra. cbn [bind].
  fold cross_angle. fold sin_cross.
  assert (Hsc : 0 < sin_cross).
  { apply sin_cross_pos, acos_first_quadrant, Hc. }
  rewrite py_div_Ok by lra. cbn [bind].
  rewrite Hs. cbn [bind].
  apply py_div_Ok. lra.
Qed.

(** Both rings have radii 5.5 and 9, so the tangent speed is at least
    5.5 everywhere. *)
Lemma speed_lower (rx ry t : R) :
  5.5 <= rx -> 5.5 <= ry ->
  exists speed, ellipse_tangent_speed rx ry t = Ok speed /\ 5.5 <= speed.
Proof.
  intros Hx Hy. eexists.
  split; [apply ellipse_tangent_speed_eq; lra|].
  rewrite <- (sqrt_square 5.5) at 1 by lra.
  apply sqrt_le_1_alt.
  pose proof (sin2_cos2 t) as Hsc. unfold Rsqr in Hsc.
  assert (Hs : 0 <= sin t * sin t) by nra.
  assert (Hc : 0 <= cos t * cos t) by nra.
  assert (5.5 * 5.5 <= rx * rx) by nra.
  assert (5.5 * 5.5 <= ry * ry) by nra.
  assert (5.5 * 5.5 * (sin t * sin t) <= rx * rx * (sin t * sin t)) by nra.
  assert (5.5 * 5.5 * (cos t * cos t) <= ry * ry * (cos t * cos t)) by nra.
  nra.
Qed.

Lemma under_speed_lower (ta tb : R) (under_is_a : bool) :
  exists speed,
    (if under_is_a then ellipse_tangent_speed A_RX A_RY ta
     else ellipse_tangent_speed B_RX B_RY tb) = Ok speed
    /\ 5.5 <= speed.
Proof.
  destruct under_is_a; apply speed_lower;
    unfold A_RX, A_RY, B_RX, B_RY; lra.
Qed.

Lemma under_speed_pos (ta tb : R) (under_is_a : bool) :
  exists speed,
    (if under_is_a then ellipse_tangent_speed A_RX A_RY ta
     else ellipse_tangent_speed B_RX B_RY tb) = Ok speed
    /\ 0 < speed.
Proof.
  destruct (under_speed_lower ta tb under_is_a) as (speed & Hs & Hlo).
  exists speed. split; [exact Hs | lra].
Qed.

(** A half-gap computed from a sine of at least 0.0099 and a speed of at
    least 5.5. *)
Lemma gap_value_bounds (sin_cross speed : R) :
  0.0099 <= sin_cross -> 5.5 <= speed ->
  0 < (THICKNESS / sin_cross / 2 + GAP_MARGIN) / speed <= 21.
Proof.
  intros Hs Hv. unfold THICKNESS, GAP_MARGIN.
  set (w := 2.2 / sin_cross).
  assert (Hw : w * sin_cross = 2.2) by (unfold w; field; lra).
  assert (Hw0 : 0 < w) by (apply Rdiv_lt_0_compat; lra).
  assert (Hw1 : w <= 223) by nra.
  set (g := (w / 2 + 0.4) / speed).
  assert (Hg : g * speed = w / 2 + 0.4) by (unfold g; field; lra).
  assert (Hg0 : 0 < g) by (apply Rdiv_lt_0_compat; lra).
  split; [exact Hg0 | nra].
Qed.

(** The gap calculator never raises and returns a half-angle that is
    positive and at most 21. *)
Lemma crossing_gap_half_bounds (ta tb : R) (under_is_a : bool) :
  exists g, crossing_gap_half ta tb under_is_a = Ok g /\ 0 < g <= 21.
Proof.
  destruct (under_speed_lower ta tb under_is_a) as (speed & Hs & Hlo).
  pose proof (ellipse_tangent_eq A_RX A_RY A_RX_pos A_RY_pos ta) as HA.
  pose proof (ellipse_tangent_eq B_RX B_RY B_RX_pos B_RY_pos tb) as HB.
  cbv zeta in HA, HB.
  eexists. split.
  - eapply crossing_gap_half_eq; eauto. lra.
  - cbv zeta. apply gap_value_bounds; [|exact Hlo].
    apply sin_cross_lower, acos_first_quadrant, clamp_range.
Qed.

Lemma crossing_gap_half_pos (ta tb : R) (under_is_a : bool) :
  exists g, crossing_gap_half ta tb under_is_a = Ok g /\ 0 < g.
Proof.
  destruct (crossing_gap_half_bounds ta tb under_is_a) as (g & Hg & Hb).
  exists g. split; [exact Hg | lra].
Qed.

(** C7. The gap calculator is total, and its result is non-negative and
    finite, for every pair of parameters and either under-band: it never
    raises and returns a real between 0 and 21.  The clamped absolute dot
    product is always accepted by the inverse cosine; the sine that divides
    the thickness, floored or not, is at least 0.0099, so the projected
    width is bounded; and the tangent speed of the under-band is at least
    5.5, so strictly positive. *)
Theorem crossing_gap_half_total (ta tb : R) (under_is_a : bool) :
  (forall d : R, py_acos (Rmin (Rabs d) 1.0) = Ok (acos (Rmin (Rabs d) 1.0)))
  /\ (forall d : R,
        let cross_angle := acos (Rmin (Rabs d) 1.0) in
        0.0099
        <= (if Rlt_dec 0.01 cross_angle then sin cross_angle else 0.01))
  /\ (exists speed,
        (if under_is_a then ellipse_tangent_speed A_RX A_RY ta
         else ellipse_tangent_speed B_RX B_RY tb) = Ok speed
        /\ 5.5 <= speed)
  /\ (exists g, crossing_gap_half ta tb under_is_a = Ok g /\ 0 <= g <= 21).
Proof.
  split; [|split; [|split]].
  - intros d. apply py_acos_Ok. pose proof (clamp_range d). lra.
  - intros d cross_angle.
    apply sin_cross_lower, acos_first_quadrant, clamp_range.
  - apply under_speed_lower.
  - destruct (crossing_gap_half_bounds ta tb under_is_a) as (g & Hg & Hb).
    exists g. split; [exact Hg | lra].
Qed.

Lemma crossing_gap_half_total_witness :
  exists g, crossing_gap_half 0 (PI / 2) true = Ok g /\ 0 <= g <= 21.
Proof.
  exact (proj2 (proj2 (proj2 (crossing_gap_half_total 0 (PI / 2) true)))).
Defined.

(** *** The calculator at the parameters 0 on A and pi/2 on B, where the
    tangents are the unit vectors (0, 1) and (-1, 0). *)

Lemma tangent_A_0 : ellipse_tangent A_RX A_RY 0 = Ok (0, 1).
Proof.
  rewrite ellipse_tangent_eq by auto with radii.
  rewrite sin_0, cos_0.
  replace (- A_RX * 0 * (- A_RX * 0) + A_RY * 1 * (A_RY * 1))
    with (A_RY * A_RY) by ring.
  rewrite sqrt_square by (unfold A_RY; lra).
  do 2 f_equal; unfold A_RX, A_RY; lra.
Qed.

Lemma tangent_B_PI2 : ellipse_tangent B_RX B_RY (PI / 2) = Ok (-1, 0).
Proof.
  rewrite ellipse_tangent_eq by auto with radii.
  rewrite sin_PI2, cos_PI2.
  replace (- B_RX * 1 * (- B_RX * 1) + B_RY * 0 * (B_RY * 0))
    with (B_RX * B_RX) by ring.
  rewrite sqrt_square by (unfold B_RX; lra).
  do 2 f_equal; unfold B_RX, B_RY; lra.
Qed.

Lemma speed_A_0 : ellipse_tangent_speed A_RX A_RY 0 = Ok 5.5.
Proof.
  rewrite ellipse_tangent_speed_eq by auto with radii.
  rewrite sin_0, cos_0.
  replace (- A_RX * 0 * (- A_RX * 0) + A_RY * 1 * (A_RY * 1))
    with (A_RY * A_RY) by ring.
  rewrite sqrt_square by (unfold A_RY; lra).
  reflexivity.
Qed.

Lemma right_angle_of_dot_0 (d : R) :
  d = 0 -> acos (Rmin (Rabs d) 1.0) = PI / 2.
Proof.
  intros ->. rewrite Rabs_R0.
  unfold Rmin. destruct (Rle_dec 0 1.0); [apply acos_0 | lra].
Qed.

Lemma PI2_above_floor : 0.01 < PI / 2.
Proof. pose proof PI2_1. lra. Qed.

(** C2. When the two unit tangents at a crossing are exactly perpendicular
    (tangent angle exactly 90 degrees), the gap half-angle is exactly
    (thickness / 2 + margin) divided by the tangent speed of the under-band
    at that crossing. *)
Theorem gap_half_at_right_angle (ta tb : R) (under_is_a : bool)
    (tA tB : R * R) (speed : R) :
  ellipse_tangent A_RX A_RY ta = Ok tA ->
  ellipse_tangent B_RX B_RY tb = Ok tB ->
  fst tA * fst tB + snd tA * snd tB = 0 ->
  (if under_is_a then ellipse_tangent_speed A_RX A_RY ta
   else ellipse_tangent_speed B_RX B_RY tb) = Ok speed ->
  crossing_gap_half ta tb under_is_a
  = Ok ((THICKNESS / 2 + GAP_MARGIN) / speed).
Proof.
  intros HA HB Hdot Hs.
  destruct (under_speed_pos ta tb under_is_a) as (speed' & Hs' & Hpos).
  rewrite Hs in Hs'. injection Hs' as <-.
  rewrite (crossing_gap_half_eq ta tb under_is_a tA tB speed HA HB Hs Hpos).
  cbv zeta. rewrite (right_angle_of_dot_0 _ Hdot).
  destruct (Rlt_dec 0.01 (PI / 2)) as [_|Hn];
    [|destruct Hn; apply PI2_above_floor].
  rewrite sin_PI2. do 2 f_equal. field.
Qed.

Lemma gap_half_at_right_angle_witness :
  crossing_gap_half 0 (PI / 2) true
  = Ok ((THICKNESS / 2 + GAP_MARGIN) / 5.5).
Proof.
  apply (gap_half_at_right_angle 0 (PI / 2) true (0, 1) (-1, 0) 5.5).
  - exact tangent_A_0.
  - exact tangent_B_PI2.
  - simpl. lra.
  - exact speed_A_0.
Defined.

(** C3, as amended.  For every crossing whose tangent angle theta is above
    the near-parallel floor, the gap half-angle is half the projected width
    thickness / sin(theta), plus the whole margin, divided by the tangent
    speed of the under-band: the margin is added after the halving. *)
Theorem gap_half_above_floor (ta tb : R) (under_is_a : bool)
    (tA tB : R * R) (speed : R) :
  ellipse_tangent A_RX A_RY ta = Ok tA ->
  ellipse_tangent B_RX B_RY tb = Ok tB ->
  (if under_is_a then ellipse_tangent_speed A_RX A_RY ta
   else ellipse_tangent_speed B_RX B_RY tb) = Ok speed ->
  let theta := acos (Rmin (Rabs (fst tA * fst tB + snd tA * snd tB)) 1.0) in
  0.01 < theta ->
  crossing_gap_half ta tb under_is_a
  = Ok ((THICKNESS / sin theta / 2 + GAP_MARGIN) / speed).
Proof.
  intros HA HB Hs theta Hfloor.
  destruct (under_speed_pos ta tb under_is_a) as (speed' & Hs' & Hpos).
  rewrite Hs in Hs'. injection Hs' as <-.
  rewrite (crossing_gap_half_eq ta tb under_is_a tA tB speed HA HB Hs Hpos).
  cbv zeta. fold theta.
  destruct (Rlt_dec 0.01 theta) as [_|Hn]; [reflexivity | tauto].
Qed.

Lemma gap_half_above_floor_witness :
  crossing_gap_half 0 (PI / 2) true
  = Ok ((THICKNESS / sin (PI / 2) / 2 + GAP_MARGIN) / 5.5).
Proof.
  pose proof (gap_half_above_floor 0 (PI / 2) true (0, 1) (-1, 0) 5.5
                tangent_A_0 tangent_B_PI2 speed_A_0) as H.
  cbv zeta in H.
  rewrite (right_angle_of_dot_0 (fst (0, 1) * fst (-1, 0)
                                 + snd (0, 1) * snd (-1, 0))) in H
    by (simpl; lra).
  apply H. exact PI2_above_floor.
Defined.

(** C3, as the specification words it, fails: at the parameters 0 on A and
    pi/2 on B with A under, the tangent angle is pi/2, above the floor, and
    the calculator returns 1.5 / 5.5 where the worded formula gives
    1.3 / 5.5. *)
Lemma gap_half_not_spec_formula :
  exists tA tB speed,
    ellipse_tangent A_RX A_RY 0 = Ok tA
    /\ ellipse_tangent B_RX B_RY (PI / 2) = Ok tB
    /\ ellipse_tangent_speed A_RX A_RY 0 = Ok speed
    /\ let theta :=
         acos (Rmin (Rabs (fst tA * fst tB + snd tA * snd tB)) 1.0) in
       0.01 < theta
       /\ crossing_gap_half 0 (PI / 2) true
          <> Ok (spec_gap_half THICKNESS GAP_MARGIN theta speed).
Proof.
  exists (0, 1), (-1, 0), 5.5.
  split; [exact tangent_A_0|]. split; [exact tangent_B_PI2|].
  split; [exact speed_A_0|]. cbv zeta.
  rewrite right_angle_of_dot_0 by (simpl; lra).
  split; [exact PI2_above_floor|].
  rewrite (crossing_gap_half_eq 0 (PI / 2) true (0, 1) (-1, 0) 5.5
             tangent_A_0 tangent_B_PI2 speed_A_0) by lra.
  cbv zeta. rewrite right_angle_of_dot_0 by (simpl; lra).
  destruct (Rlt_dec 0.01 (PI / 2)) as [_|Hn];
    [|destruct Hn; apply PI2_above_floor].
  unfold spec_gap_half. rewrite sin_PI2.
  intros Heq. injection Heq as Heq.
  unfold THICKNESS, GAP_MARGIN in Heq. lra.
Qed.

(** ** Loops, indexing and sorting *)

Lemma range_length (n : Z) : length (range n) = Z.to_nat n.
Proof. unfold range. rewrite length_map, length_seq. reflexivity. Qed.

Lemma In_range (i n : Z) : In i (range n) <-> (0 <= i < n)%Z.
Proof.
  unfold range. rewrite in_map_iff. split.
  - intros (k & <- & Hk). apply in_seq in Hk. lia.
  - intros H. exists (Z.to_nat i). split; [lia|]. apply in_seq. lia.
Qed.

Lemma range_4 : range 4 = [0; 1; 2; 3]%Z.
Proof. reflexivity. Qed.

Lemma index_Ok {A : Type} (l : list A) (i : Z) :
  (0 <= i < Z.of_nat (length l))%Z ->
  exists x, index l i = Ok x /\ In x l.
Proof.
  intros H. unfold index.
  destruct (i <? 0)%Z eqn:Hi; [lia|]. rewrite Hi.
  destruct (l !! Z.to_nat i) as [x|] eqn:Hl.
  - exists x. split; [reflexivity|].
    apply list_elem_of_In. eapply list_elem_of_lookup_2, Hl.
  - apply lookup_ge_None in Hl. lia.
Qed.


Lemma mapM_total {A B : Type} (f : A -> res B) (l : list A) :
  (forall x, In x l -> exists y, f x = Ok y) ->
  exists ys, mapM f l = Ok ys /\ length ys = length l.
Proof.
  induction l as [|x l IH]; intros H.
  - exists []. split; reflexivity.
  - destruct (H x) as (y & Hy); [left; reflexivity|].
    destruct IH as (ys & Hys & Hlen); [intros; apply H; right; assumption|].
    exists (y :: ys). simpl. rewrite Hy. simpl. rewrite Hys. simpl.
    split; [reflexivity | congruence].
Qed.

(** A loop that cannot raise from a state satisfying [P] and keeps [P]. *)
Lemma foldM_total {A B : Type} (P : B -> Prop) (body : B -> A -> res B)
    (l : list A) (acc : B) :
  P acc ->
  (forall b x, In x l -> P b -> exists b', body b x = Ok b' /\ P b') ->
  exists b, foldM body l acc = Ok b /\ P b.
Proof.
  revert acc. induction l as [|x l IH]; intros acc Hacc Hstep.
  - exists acc. split; [reflexivity | assumption].
  - destruct (Hstep acc x) as (b' & Hb' & HP); [left; reflexivity|assumption|].
    simpl. rewrite Hb'. simpl.
    apply IH; [assumption|]. intros b y Hy. apply Hstep. right. assumption.
Qed.

(** What a loop keeps whenever it ends without raising. *)
Lemma foldM_keeps {A B : Type} (P : B -> Prop) (body : B -> A -> res B)
    (l : list A) (acc b : B) :
  P acc ->
  (forall b x b', In x l -> P b -> body b x = Ok b' -> P b') ->
  foldM body l acc = Ok b -> P b.
Proof.
  revert acc. induction l as [|x l IH]; intros acc Hacc Hstep Hrun.
  - injection Hrun as <-. assumption.
  - simpl in Hrun. apply bind_Ok in Hrun as (acc' & Hx & Hrun).
    apply (IH acc'); [| |assumption].
    + apply (Hstep acc x); [left; reflexivity|assumption..].
    + intros ? y ? Hy. apply Hstep. right. assumption.
Qed.

Section Sorting.

Context {A : Type} (lt : A -> A -> bool).

Lemma insert_by_perm (x : A) (l : list A) :
  Permutation (insert_by lt x l) (x :: l).
Proof.
  induction l as [|y l IH]; simpl; [reflexivity|].
  destruct (lt y x); [|reflexivity].
  rewrite IH. apply perm_swap.
Qed.

Lemma stable_sort_perm (l : list A) : Permutation (stable_sort lt l) l.
Proof.
  induction l as [|x l IH]; simpl; [reflexivity|].
  rewrite insert_by_perm. apply perm_skip, IH.
Qed.

Lemma stable_sort_length (l : list A) : length (stable_sort lt l) = length l.
Proof. apply Permutation_length, stable_sort_perm. Qed.

(** A list already in order is left as it is. *)
Lemma stable_sort_sorted_id (l : list A) :
  StronglySorted (not_after lt) l -> stable_sort lt l = l.
Proof.
  induction 1 as [|x l Hl IH Hx]; simpl; [reflexivity|].
  rewrite IH. destruct l as [|y l']; [reflexivity|].
  simpl. inversion Hx as [|? ? Hy _]; subst.
  unfold not_after in Hy. rewrite Hy. reflexivity.
Qed.

Hypothesis lt_asym : forall x y, lt x y = true -> lt y x = false.
Hypothesis not_after_trans :
  forall x y z, not_after lt x y -> not_after lt y z -> not_after lt x z.

Lemma insert_by_sorted (x : A) (l : list A) :
  StronglySorted (not_after lt) l ->
  StronglySorted (not_after lt) (insert_by lt x l).
Proof.
  induction 1 as [|y l Hl IH Hy]; simpl.
  - constructor; constructor.
  - destruct (lt y x) eqn:Hyx.
    + constructor; [exact IH|].
      eapply Permutation_Forall; [symmetry; apply insert_by_perm|].
      constructor; [apply lt_asym, Hyx | exact Hy].
    + constructor; [constructor; assumption|].
      constructor; [exact Hyx|].
      eapply Forall_impl; [exact Hy|].
      intros z Hz. eapply not_after_trans; [exact Hyx | exact Hz].
Qed.

Lemma stable_sort_sorted (l : list A) :
  StronglySorted (not_after lt) (stable_sort lt l).
Proof.
  induction l as [|x l IH]; simpl; [constructor|].
  apply insert_by_sorted, IH.
Qed.

End Sorting.

(** In a sorted list an element comes before every element it is strictly
    below. *)
Lemma sorted_lookup_order {A : Type} (R : A -> A -> Prop) (l : list A)
    (i j : nat) (x y : A) :
  StronglySorted R l ->
  l !! i = Some x -> l !! j = Some y -> (i < j)%nat -> R x y.
Proof.
  intros Hs. revert i j. induction Hs as [|z l Hl IH Hz]; intros i j Hi Hj Hij.
  - discriminate.
  - destruct i as [|i]; destruct j as [|j]; try lia; simpl in *.
    + injection Hi as <-. rewrite Forall_forall in Hz. apply Hz.
      eapply list_elem_of_lookup_2, Hj.
    + apply (IH i j); [assumption..|lia].
Qed.

(** ** Segment assembler *)


(** One iteration either skips its arc, when the retracted end does not
    exceed the retracted start, or appends it. *)
Lemma segment_step_inv (rank : bool -> Z) (cross_angles : list R)
    (sorted : list Z) (gaps : gmap Z R) (segments segments' : list segment)
    (idx : Z) :
  segment_step rank cross_angles sorted gaps segments idx = Ok segments' ->
  exists ci s e,
    retracted_arc cross_angles sorted gaps idx = Ok (ci, (s, e))
    /\ ((e <= s /\ segments' = segments)
        \/ (s < e /\ exists top,
               index a_on_top ci = Ok top
               /\ segments' = segments ++ [(s, e, rank top)])).
Proof.
  unfold segment_step. intros H.
  apply bind_Ok in H as ([ci [s e]] & Harc & H). cbn [fst snd] in H.
  exists ci, s, e. split; [exact Harc|].
  destruct (Rle_dec e s) as [Hle|Hgt].
  - left. injection H as <-. split; [exact Hle | reflexivity].
  - right. apply bind_Ok in H as (top & Htop & H). injection H as <-.
    split; [lra|]. exists top. split; [exact Htop | reflexivity].
Qed.

Lemma segment_step_skip (rank : bool -> Z) (cross_angles : list R)
    (sorted : list Z) (gaps : gmap Z R) (segments : list segment)
    (idx ci : Z) (s e : R) :
  retracted_arc cross_angles sorted gaps idx = Ok (ci, (s, e)) ->
  e <= s ->
  segment_step rank cross_angles sorted gaps segments idx = Ok segments.
Proof.
  intros Harc Hle. unfold segment_step. rewrite Harc. cbn [bind fst snd].
  destruct (Rle_dec e s); [reflexivity | contradiction].
Qed.

Lemma ring_segments_proper (rank : bool -> Z) (cross_angles : list R)
    (gaps : gmap Z R) (segs : list segment) :
  ring_segments rank cross_angles gaps = Ok segs -> Forall proper segs.
Proof.
  unfold ring_segments. intros H.
  apply bind_Ok in H as (sorted & _ & H).
  revert H. apply foldM_keeps; [constructor|].
  intros b idx b' _ Hb Hstep.
  apply segment_step_inv in Hstep as (ci & s & e & _ & [[_ ->]|[Hlt Htop]]).
  - exact Hb.
  - destruct Htop as (top & _ & ->).
    apply Forall_app. split; [exact Hb|].
    constructor; [exact Hlt | constructor].
Qed.

Lemma sorted_indices_perm (cross_angles : list R) :
  length cross_angles = 4%nat ->
  exists sorted,
    sorted_indices cross_angles = Ok sorted
    /\ Permutation sorted [0; 1; 2; 3]%Z.
Proof.
  intros Hlen.
  destruct cross_angles as [|k0 [|k1 [|k2 [|k3 [|]]]]]; try discriminate.
  unfold sorted_indices. rewrite range_4. cbn [mapM bind index].
  eexists. split; [reflexivity|].
  etransitivity; [apply Permutation_map, stable_sort_perm|].
  reflexivity.
Qed.

Lemma perm_0123_bounds (sorted : list Z) :
  Permutation sorted [0; 1; 2; 3]%Z ->
  length sorted = 4%nat /\ forall ci, In ci sorted -> (0 <= ci < 4)%Z.
Proof.
  intros Hp. split; [apply (Permutation_length Hp)|].
  intros ci Hci. apply (Permutation_in _ Hp) in Hci. simpl in Hci. lia.
Qed.

Lemma a_on_top_total (ci : Z) :
  (0 <= ci < 4)%Z -> exists top, index a_on_top ci = Ok top.
Proof.
  intros H. destruct (index_Ok a_on_top ci) as (top & Htop & _);
    [simpl; lia | eauto].
Qed.

Lemma retracted_arc_total (cross_angles : list R) (sorted : list Z)
    (gaps : gmap Z R) (idx : Z) :
  length cross_angles = 4%nat ->
  Permutation sorted [0; 1; 2; 3]%Z ->
  (0 <= idx < 4)%Z ->
  exists ci s e,
    retracted_arc cross_angles sorted gaps idx = Ok (ci, (s, e))
    /\ (0 <= ci < 4)%Z.
Proof.
  intros Hlen Hp Hidx.
  destruct (perm_0123_bounds sorted Hp) as [Hls Hin].
  destruct (index_Ok sorted idx) as (ci & Hci & Hci_in); [lia|].
  destruct (index_Ok sorted ((idx + 1) mod 4)%Z) as (ce & Hce & Hce_in).
  { pose proof (Z.mod_pos_bound (idx + 1) 4). lia. }
  destruct (index_Ok cross_angles ci) as (t0 & Ht0 & _).
  { specialize (Hin ci Hci_in). lia. }
  destruct (index_Ok cross_angles ce) as (t1 & Ht1 & _).
  { specialize (Hin ce Hce_in). lia. }
  unfold retracted_arc.
  rewrite Hci; cbn [bind]. rewrite Hce; cbn [bind].
  rewrite Ht0; cbn [bind]. rewrite Ht1; cbn [bind].
  eexists _, _, _. split; [reflexivity | apply Hin, Hci_in].
Qed.

Lemma segment_step_total (rank : bool -> Z) (cross_angles : list R)
    (sorted : list Z) (gaps : gmap Z R) (segments : list segment) (idx : Z) :
  length cross_angles = 4%nat ->
  Permutation sorted [0; 1; 2; 3]%Z ->
  (0 <= idx < 4)%Z ->
  exists segments',
    segment_step rank cross_angles sorted gaps segments idx = Ok segments'.
Proof.
  intros Hlen Hp Hidx.
  destruct (retracted_arc_total cross_angles sorted gaps idx Hlen Hp Hidx)
    as (ci & s & e & Harc & Hci).
  unfold segment_step. rewrite Harc. cbn [bind fst snd].
  destruct (Rle_dec e s); [eauto|].
  destruct (a_on_top_total ci Hci) as (top & ->). cbn [bind]. eauto.
Qed.

Lemma ring_segments_total (rank : bool -> Z) (cross_angles : list R)
    (gaps : gmap Z R) :
  length cross_angles = 4%nat ->
  exists segs, ring_segments rank cross_angles gaps = Ok segs.
Proof.
  intros Hlen.
  destruct (sorted_indices_perm cross_angles Hlen) as (sorted & Hs & Hp).
  unfold ring_segments. rewrite Hs. cbn [bind].
  destruct (foldM_total (fun _ => True)
              (segment_step rank cross_angles sorted gaps) (range 4) [])
    as (segs & Hsegs & _); [exact I | | eauto].
  intros b idx Hidx _. apply In_range in Hidx.
  destruct (segment_step_total rank cross_angles sorted gaps b idx Hlen Hp Hidx)
    as (b' & Hb').
  eauto.
Qed.


(** ** The dictionaries of gap half-angles *)

Lemma gap_step_over (ga gb : gmap Z R) (ci : Z) (ta tb g : R) :
  index a_on_top ci = Ok true ->
  crossing_gap_half ta tb false = Ok g ->
  gap_step (ga, gb) (ci, (ta, tb)) = Ok (ga, <[ci := g]> gb).
Proof.
  intros Htop Hg. unfold gap_step. cbn [fst snd].
  rewrite Htop. cbn [bind negb]. rewrite Hg. reflexivity.
Qed.

Lemma gap_step_under (ga gb : gmap Z R) (ci : Z) (ta tb g : R) :
  index a_on_top ci = Ok false ->
  crossing_gap_half ta tb true = Ok g ->
  gap_step (ga, gb) (ci, (ta, tb)) = Ok (<[ci := g]> ga, gb).
Proof.
  intros Htop Hg. unfold gap_step. cbn [fst snd].
  rewrite Htop. cbn [bind negb]. rewrite Hg. reflexivity.
Qed.

(** With four crossings, ring A gets its gaps at crossings 1 and 3 and ring
    B at crossings 0 and 2, all positive. *)
Lemma gap_halves_four (c0 c1 c2 c3 : R * R) :
  exists g0 g1 g2 g3,
    crossing_gap_half (fst c0) (snd c0) false = Ok g0
    /\ crossing_gap_half (fst c1) (snd c1) true = Ok g1
    /\ crossing_gap_half (fst c2) (snd c2) false = Ok g2
    /\ crossing_gap_half (fst c3) (snd c3) true = Ok g3
    /\ (0 < g0 /\ 0 < g1 /\ 0 < g2 /\ 0 < g3)
    /\ gap_halves [c0; c1; c2; c3]
       = Ok (<[3%Z := g3]> (<[1%Z := g1]> ∅),
             <[2%Z := g2]> (<[0%Z := g0]> ∅)).
Proof.
  destruct (crossing_gap_half_pos (fst c0) (snd c0) false) as (g0 & H0 & P0).
  destruct (crossing_gap_half_pos (fst c1) (snd c1) true) as (g1 & H1 & P1).
  destruct (crossing_gap_half_pos (fst c2) (snd c2) false) as (g2 & H2 & P2).
  destruct (crossing_gap_half_pos (fst c3) (snd c3) true) as (g3 & H3 & P3).
  exists g0, g1, g2, g3. repeat split; try assumption.
  unfold gap_halves.
  change (enumerate [c0; c1; c2; c3])
    with [(0%Z, c0); (1%Z, c1); (2%Z, c2); (3%Z, c3)].
  destruct c0 as [ta0 tb0], c1 as [ta1 tb1], c2 as [ta2 tb2], c3 as [ta3 tb3].
  cbn [fst snd] in *. cbn [foldM].
  rewrite (gap_step_over _ _ 0 ta0 tb0 g0 eq_refl H0). cbn [bind].
  rewrite (gap_step_under _ _ 1 ta1 tb1 g1 eq_refl H1). cbn [bind].
  rewrite (gap_step_over _ _ 2 ta2 tb2 g2 eq_refl H2). cbn [bind].
  rewrite (gap_step_under _ _ 3 ta3 tb3 g3 eq_refl H3). cbn [bind].
  reflexivity.
Qed.


(** ** Outlines and the final list of shapes *)

Lemma arc_points_total (cx cy rx ry t_from t_to : R) (samples : Z) :
  samples <> 0%Z ->
  exists pts,
    arc_points cx cy rx ry t_from t_to samples = Ok pts
    /\ length pts = Z.to_nat (samples + 1).
Proof.
  intros Hs. unfold arc_points.
  rewrite <- (range_length (samples + 1)).
  apply mapM_total. intros i _.
  rewrite py_div_Ok by (apply not_0_IZR, Hs).
  cbn [bind]. eauto.
Qed.

Lemma arc_path_annulus_total (cx cy rx ry thickness t_start t_end : R)
    (samples : Z) :
  (0 < samples)%Z ->
  exists d,
    arc_path_annulus cx cy rx ry thickness t_start t_end samples = Ok d.
Proof.
  intros Hs. unfold arc_path_annulus. cbv zeta.
  destruct (arc_points_total cx cy (rx + thickness / 2) (ry + thickness / 2)
              t_start t_end samples) as (outer & -> & Hlo); [lia|].
  cbn [bind].
  destruct (arc_points_total cx cy (rx - thickness / 2) (ry - thickness / 2)
              t_end t_start samples) as (inner & -> & Hli); [lia|].
  cbn [bind].
  destruct (index_Ok (outer ++ inner) 0) as (p0 & -> & _).
  { rewrite length_app. lia. }
  cbn [bind]. eauto.
Qed.

Lemma path_step_total (rx ry : R) (acc : list (Z * string)) (s : segment) :
  exists d, path_step rx ry acc s = Ok (acc ++ [(snd s, d)]).
Proof.
  unfold path_step, ARC_SAMPLES.
  destruct (arc_path_annulus_total CX CY rx ry THICKNESS
              (fst (fst s)) (snd (fst s)) 60) as (d & ->); [lia|].
  cbn [bind]. eauto.
Qed.

(** The loop over the segments of a ring appends one path per segment, in
    order, each with the rank of its segment. *)
Lemma foldM_path_step (rx ry : R) (segs : list segment)
    (acc : list (Z * string)) :
  exists ds,
    foldM (path_step rx ry) segs acc = Ok (acc ++ ds)
    /\ map fst ds = map snd segs.
Proof.
  revert acc. induction segs as [|s segs IH]; intros acc.
  - exists []. rewrite app_nil_r. split; reflexivity.
  - destruct (path_step_total rx ry acc s) as (d & Hd).
    destruct (IH (acc ++ [(snd s, d)])) as (ds & Hds & Hranks).
    exists ((snd s, d) :: ds). cbn [foldM]. rewrite Hd. cbn [bind].
    rewrite Hds, <- app_assoc. split; [reflexivity|].
    simpl. rewrite Hranks. reflexivity.
Qed.

Lemma all_paths_eq (a_segs b_segs : list segment) :
  exists ps,
    all_paths a_segs b_segs = Ok (stable_sort rank_ltb ps)
    /\ map fst ps = map snd (a_segs ++ b_segs).
Proof.
  unfold all_paths.
  destruct (foldM_path_step A_RX A_RY a_segs []) as (da & -> & Ha).
  cbn [bind app].
  destruct (foldM_path_step B_RX B_RY b_segs da) as (db & -> & Hb).
  cbn [bind].
  exists (da ++ db). split; [reflexivity|].
  rewrite !map_app, Ha, Hb. reflexivity.
Qed.

Lemma rank_ltb_asym (p q : Z * string) :
  rank_ltb p q = true -> rank_ltb q p = false.
Proof. unfold rank_ltb. lia. Qed.

Lemma rank_not_after_trans (p q r : Z * string) :
  not_after rank_ltb p q -> not_after rank_ltb q r -> not_after rank_ltb p r.
Proof. unfold not_after, rank_ltb. lia. Qed.

(** ** The whole pipeline *)

Lemma generate_svg_from_total (crossings : list (R * R)) :
  length crossings = 4%nat ->
  exists svg, generate_svg_from crossings = Ok svg.
Proof.
  intros Hlen. unfold generate_svg_from. rewrite Hlen. cbn [Z.of_nat].
  change (negb (Z.pos (Pos.of_succ_nat 3) =? 4)%Z) with false. cbv iota.
  destruct crossings as [|c0 [|c1 [|c2 [|c3 [|]]]]]; try discriminate.
  destruct (gap_halves_four c0 c1 c2 c3)
    as (g0 & g1 & g2 & g3 & _ & _ & _ & _ & _ & ->).
  cbn [bind fst snd].
  destruct (ring_segments_total a_rank
              (map (fun c => normalize_angle (fst c)) [c0; c1; c2; c3])
              (<[3%Z := g3]> (<[1%Z := g1]> ∅))) as (sa & Hsa);
    [reflexivity|].
  unfold a_segments. rewrite Hsa. cbn [bind].
  destruct (ring_segments_total b_rank
              (map (fun c => normalize_angle (snd c)) [c0; c1; c2; c3])
              (<[2%Z := g2]> (<[0%Z := g0]> ∅))) as (sb & Hsb);
    [reflexivity|].
  unfold b_segments. rewrite Hsb. cbn [bind].
  destruct (all_paths_eq sa sb) as (ps & -> & _). cbn [bind].
  eauto.
Qed.

(** C4. For band A and for band B, every arc segment that is emitted has its
    start parameter strictly below its end parameter after both gap
    retractions; an arc whose retracted end does not exceed its retracted
    start is skipped: the iteration leaves the list of segments as it was,
    so the arc yields no shape.  An iteration that does not raise does one
    or the other with the retracted arc and nothing else.  With four
    crossings both loops run to their end, so the statement is about
    segments that exist. *)
Theorem emitted_arcs_proper (crossings : list (R * R))
    (a_gap_halves b_gap_halves : gmap Z R) :
  (forall segs,
      a_segments crossings a_gap_halves = Ok segs -> Forall proper segs)
  /\ (forall segs,
        b_segments crossings b_gap_halves = Ok segs -> Forall proper segs)
  /\ (forall rank cross_angles sorted gaps segments idx ci s e,
        retracted_arc cross_angles sorted gaps idx = Ok (ci, (s, e)) ->
        e <= s ->
        segment_step rank cross_angles sorted gaps segments idx
        = Ok segments)
  /\ (forall rank cross_angles sorted gaps segments segments' idx,
        segment_step rank cross_angles sorted gaps segments idx
        = Ok segments' ->
        exists ci s e,
          retracted_arc cross_angles sorted gaps idx = Ok (ci, (s, e))
          /\ ((e <= s /\ segments' = segments)
              \/ (s < e /\ exists z, segments' = segments ++ [(s, e, z)])))
  /\ (length crossings = 4%nat ->
      exists a_segs b_segs,
        a_segments crossings a_gap_halves = Ok a_segs
        /\ b_segments crossings b_gap_halves = Ok b_segs).
Proof.
  split; [|split; [|split; [|split]]].
  - intros segs. apply ring_segments_proper.
  - intros segs. apply ring_segments_proper.
  - intros rank cross_angles sorted gaps segments idx ci s e.
    apply segment_step_skip.
  - intros rank cross_angles sorted gaps segments segments' idx Hstep.
    apply segment_step_inv in Hstep
      as (ci & s & e & Harc & [[Hle ->]|[Hlt (top & _ & ->)]]);
      exists ci, s, e; (split; [exact Harc|]); [left|right].
    + split; [exact Hle | reflexivity].
    + split; [exact Hlt|]. exists (rank top). reflexivity.
  - intros Hlen.
    destruct (ring_segments_total a_rank
                (map (fun c => normalize_angle (fst c)) crossings)
                a_gap_halves) as (sa & Hsa); [rewrite length_map; exact Hlen|].
    destruct (ring_segments_total b_rank
                (map (fun c => normalize_angle (snd c)) crossings)
                b_gap_halves) as (sb & Hsb); [rewrite length_map; exact Hlen|].
    exists sa, sb. split; assumption.
Qed.

(** An arc that a gap of 5 at its start turns inside out: it starts at
    0 + 5 and ends at 1. *)
Lemma inverted_arc :
  retracted_arc [0; 1; 2; 3] [0; 1; 2; 3]%Z (<[0%Z := 5]> ∅) 0
  = Ok (0%Z, (0 + 5, 1)).
Proof.
  unfold retracted_arc. cbn [index bind].
  change (index [0; 1; 2; 3]%Z 0) with (Ok 0%Z : res Z). cbn [bind].
  change (index [0; 1; 2; 3]%Z ((0 + 1) mod 4)) with (Ok 1%Z : res Z).
  cbn [bind].
  change (index [0; 1; 2; 3] 0) with (Ok 0 : res R). cbn [bind].
  change (index [0; 1; 2; 3] 1) with (Ok 1 : res R). cbn [bind].
  destruct (Rle_dec 1 0) as [H|_]; [lra|].
  rewrite lookup_insert_eq.
  rewrite lookup_insert_ne by lia. rewrite lookup_empty.
  reflexivity.
Qed.

Lemma emitted_arcs_proper_witness :
  segment_step a_rank [0; 1; 2; 3] [0; 1; 2; 3]%Z (<[0%Z := 5]> ∅) [] 0
  = Ok [].
Proof.
  destruct (emitted_arcs_proper [] ∅ ∅) as (_ & _ & Hskip & _).
  apply (Hskip a_rank _ _ _ [] 0%Z 0%Z (0 + 5) 1 inverted_arc). lra.
Defined.

(** C5. The final list holds one filled shape per surviving arc segment of
    the two bands, with the ranks of those segments, the document has one
    path line per shape between its header and its footer, and every shape
    of back rank comes before every shape of front rank. *)
Theorem shapes_count_and_order (a_segs b_segs : list segment) :
  exists paths,
    all_paths a_segs b_segs = Ok paths
    /\ length paths = (length a_segs + length b_segs)%nat
    /\ Permutation (map fst paths) (map snd (a_segs ++ b_segs))
    /\ svg_lines paths
       = [svg_header] ++ map path_line paths ++ ["</svg>"; ""]%string
    /\ (forall i j p q,
          paths !! i = Some p -> paths !! j = Some q ->
          fst p = BACK -> fst q = FRONT -> (i < j)%nat).
Proof.
  destruct (all_paths_eq a_segs b_segs) as (ps & Hps & Hranks).
  exists (stable_sort rank_ltb ps). split; [exact Hps|].
  split; [|split; [|split]].
  - rewrite stable_sort_length, <- (length_map fst), Hranks.
    rewrite length_map, length_app. reflexivity.
  - rewrite <- Hranks. apply Permutation_map, stable_sort_perm.
  - reflexivity.
  - intros i j p q Hi Hj Hp Hq.
    pose proof (stable_sort_sorted rank_ltb rank_ltb_asym
                  rank_not_after_trans ps) as Hsorted.
    destruct (Nat.lt_trichotomy i j) as [Hlt|[->|Hgt]]; [exact Hlt| |].
    + rewrite Hi in Hj. injection Hj as <-.
      unfold BACK, FRONT in *. lia.
    + pose proof (sorted_lookup_order _ _ j i q p Hsorted Hj Hi Hgt) as Hqp.
      unfold not_after, rank_ltb, BACK, FRONT in *. lia.
Qed.

Lemma shapes_count_and_order_witness :
  exists back front,
    all_paths [(0, 1, FRONT)] [(0, 1, BACK)] = Ok [back; front]
    /\ fst back = BACK /\ fst front = FRONT.
Proof.
  destruct (shapes_count_and_order [(0, 1, FRONT)] [(0, 1, BACK)])
    as (paths & Hpaths & Hlen & Hperm & _ & Hord).
  destruct paths as [|p [|q [|]]]; try discriminate Hlen.
  exists p, q. split; [exact Hpaths|].
  apply Permutation_length_2 in Hperm as [[Hp Hq]|[Hp Hq]].
  - specialize (Hord 1%nat 0%nat q p eq_refl eq_refl Hq Hp). lia.
  - split; assumption.
Defined.

(** C8. When the intersection search does not yield exactly 4 crossings the
    pipeline raises at once the assertion error whose message gives the
    count found, whatever the rest would compute; with exactly 4 crossings
    it returns a document.  So the run fails if and only if the count is
    not 4. *)
Theorem abort_iff_not_four (crossings : list (R * R)) :
  (length crossings <> 4%nat ->
   generate_svg_from crossings
   = Raise (AssertionError
              ("Expected 4 crossings, got "
                 ++ str_of_Z (Z.of_nat (length crossings)))%string))
  /\ (length crossings = 4%nat ->
      exists svg, generate_svg_from crossings = Ok svg)
  /\ ((exists e, generate_svg_from crossings = Raise e)
      <-> length crossings <> 4%nat).
Proof.
  set (msg := ("Expected 4 crossings, got "
                 ++ str_of_Z (Z.of_nat (length crossings)))%string).
  assert (Hne : length crossings <> 4%nat ->
                generate_svg_from crossings = Raise (AssertionError msg)).
  { intros Hlen. unfold generate_svg_from, msg.
    destruct (Z.eqb_spec (Z.of_nat (length crossings)) 4) as [Heq|_];
      [lia | reflexivity]. }
  split; [exact Hne|]. split; [apply generate_svg_from_total|].
  split.
  - intros (e & He) Hlen.
    destruct (generate_svg_from_total crossings Hlen) as (svg & Hsvg).
    congruence.
  - intros Hlen. eexists. apply Hne, Hlen.
Qed.

Lemma abort_iff_not_four_witness :
  generate_svg_from [(0, 0); (1, 1)]
  = Raise (AssertionError "Expected 4 crossings, got 2").
Proof.
  apply (proj1 (abort_iff_not_four [(0, 0); (1, 1)])). discriminate.
Defined.

(** ** Numerical bounds for the sampling loop *)

(** With 7200 samples, sample [j] is at [j] twentieths of a degree. *)
Lemma sample_angle_7200 (j : Z) : sample_angle 7200 j = PI * IZR j / 3600.
Proof. unfold sample_angle. field. Qed.

Lemma cos_sample (j : Z) :
  cos (sample_angle 7200 j) = sin (PI * IZR (1800 - j) / 3600).
Proof.
  rewrite <- sin_shift. f_equal. rewrite sample_angle_7200, minus_IZR. field.
Qed.

Lemma cos_1169 : 0.52324 <= cos (sample_angle 7200 1169).
Proof.
  rewrite cos_sample. change (1800 - 1169)%Z with 631%Z.
  pose proof PI_estimate as [Hl Hu].
  apply Rle_trans with (sin_lb (3.14159 * 631 / 3600)).
  - rewrite sin_lb_poly. lra.
  - apply sin_above; lra.
Qed.

Lemma cos_1173 : 0.52026 <= cos (sample_angle 7200 1173).
Proof.
  rewrite cos_sample. change (1800 - 1173)%Z with 627%Z.
  pose proof PI_estimate as [Hl Hu].
  apply Rle_trans with (sin_lb (3.14159 * 627 / 3600)).
  - rewrite sin_lb_poly. lra.
  - apply sin_above; lra.
Qed.

Lemma cos_1170 : cos (sample_angle 7200 1170) <= 0.5225.
Proof.
  rewrite cos_sample. change (1800 - 1170)%Z with 630%Z.
  pose proof PI_estimate as [Hl Hu].
  apply Rle_trans with (sin_ub (3.1416 * 630 / 3600)).
  - apply sin_below; lra.
  - rewrite sin_ub_poly. lra.
Qed.

Lemma cos_1174 : cos (sample_angle 7200 1174) <= 0.51953.
Proof.
  rewrite cos_sample. change (1800 - 1174)%Z with 626%Z.
  pose proof PI_estimate as [Hl Hu].
  apply Rle_trans with (sin_ub (3.1416 * 626 / 3600)).
  - apply sin_below; lra.
  - rewrite sin_ub_poly. lra.
Qed.

(** On the first quarter turn the cosine of the samples decreases and is
    not negative. *)
Lemma cos_sample_decr (j k : Z) :
  (0 <= j <= k)%Z -> (k <= 1800)%Z ->
  0 <= cos (sample_angle 7200 k) <= cos (sample_angle 7200 j).
Proof.
  intros Hjk Hk. rewrite !sample_angle_7200.
  pose proof PI_RGT_0 as Hpi.
  assert (Hj0 : 0 <= IZR j) by (apply IZR_le; lia).
  assert (Hjk' : IZR j <= IZR k) by (apply IZR_le; lia).
  assert (Hk' : IZR k <= 1800) by (apply IZR_le; lia).
  assert (Ha : 0 <= PI * IZR j / 3600) by nra.
  assert (Hb : PI * IZR j / 3600 <= PI * IZR k / 3600) by nra.
  assert (Hc : PI * IZR k / 3600 <= PI / 2) by nra.
  split.
  - apply cos_ge_0; lra.
  - apply cos_decr_1; lra.
Qed.

(** The squared cosine of a sample is that of its mirror image in the
    first quarter turn. *)
Lemma cos_sq_mirror (i j : Z) :
  i = j \/ i = (3600 - j)%Z \/ i = (3600 + j)%Z \/ i = (7200 - j)%Z ->
  cos (sample_angle 7200 i) * cos (sample_angle 7200 i)
  = cos (sample_angle 7200 j) * cos (sample_angle 7200 j).
Proof.
  rewrite !sample_angle_7200.
  intros [ -> | [ -> | [ -> | -> ] ] ]; [reflexivity| | |].
  - replace (PI * IZR (3600 - j) / 3600) with (PI - PI * IZR j / 3600)
      by (rewrite minus_IZR; field).
    rewrite Rtrigo_facts.cos_pi_minus. ring.
  - replace (PI * IZR (3600 + j) / 3600) with (PI * IZR j / 3600 + PI)
      by (rewrite plus_IZR; field).
    rewrite neg_cos. ring.
  - replace (PI * IZR (7200 - j) / 3600)
      with (- (PI * IZR j / 3600) + 2 * INR 1 * PI)
      by (rewrite minus_IZR; simpl; field).
    rewrite cos_period, cos_neg. reflexivity.
Qed.

Lemma cos_sq_below_window (j : Z) :
  (0 <= j <= 1169)%Z ->
  0.2733 <= cos (sample_angle 7200 j) * cos (sample_angle 7200 j).
Proof.
  intros Hj. pose proof cos_1169 as H.
  destruct (cos_sample_decr j 1169) as [_ Hd]; [lia..|]. nra.
Qed.

Lemma cos_sq_above_window (j : Z) :
  (1174 <= j <= 1800)%Z ->
  cos (sample_angle 7200 j) * cos (sample_angle 7200 j) <= 0.2706.
Proof.
  intros Hj. pose proof cos_1174 as H.
  destruct (cos_sample_decr 1174 j) as [H0 Hd]; [lia..|]. nra.
Qed.

Lemma cos_sq_in_window (j : Z) :
  (1170 <= j <= 1173)%Z ->
  0.27065 <= cos (sample_angle 7200 j) * cos (sample_angle 7200 j)
  <= 0.27302.
Proof.
  intros Hj. pose proof cos_1170 as Hu. pose proof cos_1173 as Hl.
  destruct (cos_sample_decr 1170 j) as [H0 Hd]; [lia..|].
  destruct (cos_sample_decr j 1173) as [_ Hd']; [lia..|].
  split; nra.
Qed.

(** ** One iteration of the sampling loop *)

(** The value tested against 1, as a function of the cosine alone. *)
Lemma implicit_B_of_cos (t : R) :
  A_RX * cos t / B_RX * (A_RX * cos t / B_RX)
  + A_RY * sin t / B_RY * (A_RY * sin t / B_RY) - 1.0
  = 90335 / 39204 * (cos t * cos t) - 203 / 324.
Proof.
  pose proof (sin2_cos2 t) as H. unfold Rsqr in H.
  unfold A_RX, A_RY, B_RX, B_RY.
  set (s := sin t) in *. set (c := cos t) in *.
  replace (9.0 * c / 5.5 * (9.0 * c / 5.5) + 5.5 * s / 9.0 * (5.5 * s / 9.0)
           - 1.0)
    with (324 / 121 * (c * c) + 121 / 324 * (s * s) - 1) by lra.
  replace (s * s) with (1 - c * c) by lra.
  lra.
Qed.

(** A sample whose squared cosine is outside the window is rejected. *)
Lemma crossing_step_far (N : Z) (st : list (R * R)) (i : Z) :
  let c := cos (sample_angle N i) in
  c * c <= 0.2706 \/ 0.2733 <= c * c ->
  crossing_step N st i = st.
Proof.
  intros c Hc. unfold crossing_step. fold (sample_angle N i). cbv zeta.
  destruct (Rltb 1.0 _ || Rltb 1.0 _); [reflexivity|].
  rewrite implicit_B_of_cos. fold c.
  match goal with
  | |- (if Rltb ?a ?b then _ else _) = _ =>
      assert (Hf : Rltb a b = false)
  end.
  { apply Rltb_false. unfold Rabs. destruct (Rcase_abs _); lra. }
  rewrite Hf. reflexivity.
Qed.

(** A sample close to a recorded crossing is dropped. *)
Lemma crossing_step_dup (N : Z) (st : list (R * R)) (i : Z) (p : R * R) :
  In p st ->
  Rabs (sample_angle N i - fst p) < 0.05 ->
  crossing_step N st i = st.
Proof.
  intros Hp Hnear. unfold crossing_step. fold (sample_angle N i). cbv zeta.
  destruct (Rltb 1.0 _ || Rltb 1.0 _); [reflexivity|].
  destruct (Rltb (Rabs _) 0.003); [|reflexivity].
  match goal with
  | |- (if ?b then _ else _) = _ => assert (Hb : b = true)
  end.
  { apply existsb_exists. exists p. split; [exact Hp|].
    apply Rltb_true, Hnear. }
  rewrite Hb. reflexivity.
Qed.

(** A sample in the window and away from the recorded crossings is
    recorded. *)
Lemma crossing_step_new (N : Z) (st : list (R * R)) (i : Z) :
  let c := cos (sample_angle N i) in
  0.27065 <= c * c <= 0.27302 ->
  (forall p, In p st -> 0.05 <= Rabs (sample_angle N i - fst p)) ->
  crossing_step N st i = st ++ [sample_crossing N i].
Proof.
  intros c Hc Hfar. unfold crossing_step, sample_crossing.
  fold (sample_angle N i). cbv zeta.
  pose proof (SIN_bound (sample_angle N i)) as Hs.
  assert (Hcb : Rltb 1.0 (Rabs (A_RX * cos (sample_angle N i) / B_RX))
                = false).
  { apply Rltb_false. fold c. unfold A_RX, B_RX.
    assert (-0.6 <= c <= 0.6) by nra.
    unfold Rabs. destruct (Rcase_abs _); lra. }
  assert (Hsb : Rltb 1.0 (Rabs (A_RY * sin (sample_angle N i) / B_RY))
                = false).
  { apply Rltb_false. unfold A_RY, B_RY.
    unfold Rabs. destruct (Rcase_abs _); lra. }
  rewrite Hcb, Hsb. cbn [orb].
  rewrite implicit_B_of_cos. fold c.
  match goal with
  | |- (if Rltb ?a ?b then _ else _) = _ =>
      assert (Ht : Rltb a b = true)
  end.
  { apply Rltb_true. unfold Rabs. destruct (Rcase_abs _); lra. }
  rewrite Ht.
  match goal with
  | |- (if ?b then _ else _) = _ => destruct b eqn:Hb
  end; [|reflexivity].
  apply existsb_exists in Hb as (p & Hp & Hnear).
  apply Rltb_true in Hnear. specialize (Hfar p Hp). lra.
Qed.

(** ** Ranges of samples *)

Lemma range_from_0 (n : Z) : range n = range_from 0 n.
Proof. unfold range, range_from. rewrite Z.sub_0_r. reflexivity. Qed.

Lemma map_seq_shift (lo : Z) (a n : nat) :
  map (fun k => lo + Z.of_nat k)%Z (seq a n)
  = map (fun k => lo + Z.of_nat a + Z.of_nat k)%Z (seq 0 n).
Proof.
  revert lo a. induction n as [|n IH]; intros lo a; [reflexivity|].
  simpl. f_equal; [lia|].
  rewrite (IH lo (S a)), (IH (lo + Z.of_nat a)%Z 1%nat).
  apply map_ext. intros k. lia.
Qed.

Lemma range_from_split (lo mid hi : Z) :
  (lo <= mid <= hi)%Z ->
  range_from lo hi = range_from lo mid ++ range_from mid hi.
Proof.
  intros H. unfold range_from.
  replace (Z.to_nat (hi - lo))
    with (Z.to_nat (mid - lo) + Z.to_nat (hi - mid))%nat by lia.
  rewrite seq_app, map_app. f_equal.
  rewrite Nat.add_0_l, map_seq_shift.
  apply map_ext. intros k. lia.
Qed.

Lemma range_from_cons (lo hi : Z) :
  (lo < hi)%Z -> range_from lo hi = lo :: range_from (lo + 1) hi.
Proof.
  intros H. rewrite (range_from_split lo (lo + 1) hi) by lia.
  unfold range_from at 1.
  replace (lo + 1 - lo)%Z with 1%Z by lia.
  simpl. f_equal. lia.
Qed.

Lemma In_range_from (i lo hi : Z) :
  In i (range_from lo hi) -> (lo <= i < hi)%Z.
Proof.
  unfold range_from. rewrite in_map_iff.
  intros (k & <- & Hk). apply in_seq in Hk. lia.
Qed.

(** A stretch of iterations that each leave the state as it is. *)
Lemma fold_left_skip {A B : Type} (f : B -> A -> B) (l : list A) (st : B) :
  (forall x, In x l -> f st x = st) -> fold_left f l st = st.
Proof.
  induction l as [|x l IH]; intros H; [reflexivity|].
  simpl. rewrite (H x) by (left; reflexivity).
  apply IH. intros y Hy. apply H. right. exact Hy.
Qed.

Lemma sample_gap (i k : Z) :
  sample_angle 7200 i - sample_angle 7200 k = PI * IZR (i - k) / 3600.
Proof. rewrite !sample_angle_7200, minus_IZR. field. Qed.

(** Samples at most 57 steps after a recorded one are within 0.05 of it;
    samples at least 58 steps after it are not. *)
Lemma sample_near (i k : Z) :
  (0 <= i - k <= 57)%Z ->
  Rabs (sample_angle 7200 i - sample_angle 7200 k) < 0.05.
Proof.
  intros H. rewrite sample_gap. pose proof PI_estimate as [Hl Hu].
  assert (0 <= IZR (i - k) <= 57) by (split; apply IZR_le; lia).
  rewrite Rabs_pos_eq by nra. nra.
Qed.

Lemma sample_apart (i k : Z) :
  (58 <= i - k)%Z ->
  0.05 <= Rabs (sample_angle 7200 i - sample_angle 7200 k).
Proof.
  intros H. rewrite sample_gap. pose proof PI_estimate as [Hl Hu].
  assert (58 <= IZR (i - k)) by (apply IZR_le; lia).
  rewrite Rabs_pos_eq by nra. nra.
Qed.

(** ** The sampling loop over a full revolution *)

Lemma quadrant (i : Z) :
  (0 <= i <= 7200)%Z ->
  exists j,
    (0 <= j <= 1800)%Z
    /\ (i = j \/ i = (3600 - j)%Z \/ i = (3600 + j)%Z \/ i = (7200 - j)%Z).
Proof.
  intros H.
  destruct (Z_le_gt_dec i 1800); [exists i; lia|].
  destruct (Z_le_gt_dec i 3600); [exists (3600 - i)%Z; lia|].
  destruct (Z_le_gt_dec i 5400); [exists (i - 3600)%Z; lia|].
  exists (7200 - i)%Z. lia.
Qed.

(** The samples outside the four windows are rejected. *)
Lemma far_sample (st : list (R * R)) (i : Z) :
  (0 <= i <= 1169)%Z \/ (1174 <= i <= 2426)%Z \/ (2431 <= i <= 4769)%Z
  \/ (4774 <= i <= 6026)%Z \/ (6031 <= i <= 7200)%Z ->
  crossing_step 7200 st i = st.
Proof.
  intros H. apply crossing_step_far. cbv zeta.
  destruct (quadrant i) as (j & Hj & Hm); [lia|].
  rewrite (cos_sq_mirror i j Hm).
  destruct (Z_le_gt_dec j 1169).
  - right. apply cos_sq_below_window. lia.
  - left. apply cos_sq_above_window. lia.
Qed.

(** The first sample of each window is recorded: no crossing recorded
    before is within 57 samples of it. *)
Lemma window_sample (st : list (R * R)) (i : Z) :
  (1170 <= i <= 1173)%Z \/ (2427 <= i <= 2430)%Z \/ (4770 <= i <= 4773)%Z
  \/ (6027 <= i <= 6030)%Z ->
  Forall (fun p => exists k,
              p = sample_crossing 7200 k /\ (58 <= i - k)%Z) st ->
  crossing_step 7200 st i = st ++ [sample_crossing 7200 i].
Proof.
  intros H Hst. apply crossing_step_new.
  - cbv zeta. destruct (quadrant i) as (j & Hj & Hm); [lia|].
    rewrite (cos_sq_mirror i j Hm). apply cos_sq_in_window. lia.
  - intros p Hp. rewrite Forall_forall in Hst.
    destruct (Hst p) as (k & -> & Hk); [apply list_elem_of_In, Hp|].
    apply sample_apart, Hk.
Qed.

(** The loop from [lo] on first crosses a stretch where nothing changes:
    samples that follow a recorded crossing by at most 57 steps, whether in
    the window or not, and samples outside the windows. *)
Lemma loop_near (st : list (R * R)) (k lo mid hi : Z) :
  (lo <= mid <= hi)%Z ->
  In (sample_crossing 7200 k) st ->
  (k <= lo)%Z -> (mid <= k + 58)%Z ->
  fold_left (crossing_step 7200) (range_from lo hi) st
  = fold_left (crossing_step 7200) (range_from mid hi) st.
Proof.
  intros Hm Hk Hlo Hhi.
  rewrite (range_from_split lo mid hi Hm), fold_left_app. f_equal.
  apply fold_left_skip. intros i Hi. apply In_range_from in Hi.
  apply (crossing_step_dup 7200 st i _ Hk).
  apply sample_near. lia.
Qed.

Lemma loop_far (st : list (R * R)) (lo mid hi : Z) :
  (lo <= mid <= hi)%Z ->
  ((0 <= lo)%Z /\ (mid <= 1170)%Z) \/ ((1174 <= lo)%Z /\ (mid <= 2427)%Z)
  \/ ((2431 <= lo)%Z /\ (mid <= 4770)%Z)
  \/ ((4774 <= lo)%Z /\ (mid <= 6027)%Z)
  \/ ((6031 <= lo)%Z /\ (mid <= 7200)%Z) ->
  fold_left (crossing_step 7200) (range_from lo hi) st
  = fold_left (crossing_step 7200) (range_from mid hi) st.
Proof.
  intros Hm H.
  rewrite (range_from_split lo mid hi Hm), fold_left_app. f_equal.
  apply fold_left_skip. intros i Hi. apply In_range_from in Hi.
  apply far_sample. lia.
Qed.

(** The loop from the first sample of a window on records that sample. *)
Lemma loop_window (st : list (R * R)) (i next hi : Z) :
  next = (i + 1)%Z -> (i < hi)%Z ->
  (1170 <= i <= 1173)%Z \/ (2427 <= i <= 2430)%Z \/ (4770 <= i <= 4773)%Z
  \/ (6027 <= i <= 6030)%Z ->
  Forall (fun p => exists k,
              p = sample_crossing 7200 k /\ (58 <= i - k)%Z) st ->
  fold_left (crossing_step 7200) (range_from i hi) st
  = fold_left (crossing_step 7200) (range_from next hi)
      (st ++ [sample_crossing 7200 i]).
Proof.
  intros -> Hhi Hw Hst.
  rewrite (range_from_cons i hi Hhi). cbn [fold_left].
  rewrite (window_sample st i Hw Hst). reflexivity.
Qed.

Lemma range_from_nil (lo : Z) : range_from lo lo = [].
Proof. unfold range_from. rewrite Z.sub_diag. reflexivity. Qed.

Lemma recorded_before (i k : Z) :
  (58 <= i - k)%Z ->
  exists k', sample_crossing 7200 k = sample_crossing 7200 k'
             /\ (58 <= i - k')%Z.
Proof. intros H. exists k. split; [reflexivity | exact H]. Qed.

(** The loop records the samples 1170, 2427, 4770 and 6027. *)
Lemma sampling_loop :
  fold_left (crossing_step 7200) (range 7200) []
  = [sample_crossing 7200 1170; sample_crossing 7200 2427;
     sample_crossing 7200 4770; sample_crossing 7200 6027].
Proof.
  rewrite range_from_0.
  (* the first window *)
  rewrite (loop_far [] 0 1170 7200) by lia.
  rewrite (loop_window [] 1170 1171 7200) by (try lia; constructor).
  cbn [app].
  rewrite (loop_near _ 1170 1171 1228 7200)
    by (try lia; left; reflexivity).
  (* the second window *)
  rewrite (loop_far _ 1228 2427 7200) by lia.
  rewrite (loop_window _ 2427 2428 7200)
    by (try lia; repeat constructor; apply recorded_before; lia).
  cbn [app].
  rewrite (loop_near _ 2427 2428 2485 7200)
    by (try lia; right; left; reflexivity).
  (* the third window *)
  rewrite (loop_far _ 2485 4770 7200) by lia.
  rewrite (loop_window _ 4770 4771 7200)
    by (try lia; repeat constructor; apply recorded_before; lia).
  cbn [app].
  rewrite (loop_near _ 4770 4771 4828 7200)
    by (try lia; right; right; left; reflexivity).
  (* the fourth window *)
  rewrite (loop_far _ 4828 6027 7200) by lia.
  rewrite (loop_window _ 6027 6028 7200)
    by (try lia; repeat constructor; apply recorded_before; lia).
  cbn [app].
  rewrite (loop_near _ 6027 6028 6085 7200)
    by (try lia; right; right; right; left; reflexivity).
  (* the rest of the revolution *)
  rewrite (loop_far _ 6085 7200 7200) by lia.
  rewrite range_from_nil. reflexivity.
Qed.

(** ** The crossings found *)

Lemma sample_angle_mono (i k : Z) :
  (i < k)%Z -> sample_angle 7200 i < sample_angle 7200 k.
Proof.
  intros H. rewrite !sample_angle_7200. pose proof PI_RGT_0.
  apply IZR_lt in H. nra.
Qed.

Lemma sample_angle_range (i : Z) :
  (0 <= i < 7200)%Z -> 0 <= sample_angle 7200 i < 2 * PI.
Proof.
  intros [H0 H1]. rewrite sample_angle_7200. pose proof PI_RGT_0.
  apply IZR_le in H0. apply IZR_lt in H1. split; nra.
Qed.

Lemma pair_not_after (p q : R * R) :
  fst p < fst q -> not_after pair_ltb p q.
Proof.
  intros H. unfold not_after, pair_ltb.
  assert (Hlt : Rltb (fst q) (fst p) = false) by (apply Rltb_false; lra).
  rewrite Hlt. destruct (Req_dec_T (fst q) (fst p)); [lra | reflexivity].
Qed.

(** The crossings are the four recorded samples, already in order. *)
Lemma find_crossings_eq :
  find_crossings
  = [sample_crossing 7200 1170; sample_crossing 7200 2427;
     sample_crossing 7200 4770; sample_crossing 7200 6027].
Proof.
  unfold find_crossings. cbv zeta. rewrite sampling_loop.
  apply stable_sort_sorted_id.
  repeat (constructor; [|repeat constructor;
                          apply pair_not_after, sample_angle_mono; lia]).
  constructor.
Qed.

Lemma find_crossings_length : length find_crossings = 4%nat.
Proof. rewrite find_crossings_eq. reflexivity. Qed.

Lemma window_on_B (i : Z) :
  (1170 <= i <= 1173)%Z \/ (2427 <= i <= 2430)%Z \/ (4770 <= i <= 4773)%Z
  \/ (6027 <= i <= 6030)%Z ->
  let ta := sample_angle 7200 i in
  Rabs (implicit B_RX B_RY (A_RX * cos ta) (A_RY * sin ta) - 1) < 0.003.
Proof.
  intros H ta. unfold implicit.
  pose proof (implicit_B_of_cos ta) as E.
  assert (Hc : 0.27065 <= cos ta * cos ta <= 0.27302).
  { unfold ta. destruct (quadrant i) as (j & Hj & Hm); [lia|].
    rewrite (cos_sq_mirror i j Hm). apply cos_sq_in_window. lia. }
  unfold Rabs. destruct (Rcase_abs _); lra.
Qed.

Lemma point_on_A (t : R) :
  implicit A_RX A_RY (A_RX * cos t) (A_RY * sin t) = 1.
Proof.
  unfold implicit. pose proof (sin2_cos2 t) as H. unfold Rsqr in H.
  replace (A_RX * cos t / A_RX) with (cos t)
    by (field; pose proof A_RX_pos; lra).
  replace (A_RY * sin t / A_RY) with (sin t)
    by (field; pose proof A_RY_pos; lra).
  lra.
Qed.

(** C1. With the default radii the intersection finder returns exactly 4
    crossings, in strictly ascending order of the parameter on A; for each,
    the point of A at that parameter satisfies the implicit equation of A
    exactly and that of B within 0.003, and the parameter on B is the
    two-argument arctangent of its coordinates scaled by the radii of B. *)
Theorem find_crossings_four :
  length find_crossings = 4%nat
  /\ StronglySorted (fun p q => fst p < fst q) find_crossings
  /\ Forall (fun c =>
               let x := A_RX * cos (fst c) in
               let y := A_RY * sin (fst c) in
               implicit A_RX A_RY x y = 1
               /\ Rabs (implicit B_RX B_RY x y - 1) < 0.003
               /\ snd c = atan2 (y / B_RY) (x / B_RX))
            find_crossings.
Proof.
  rewrite find_crossings_eq. split; [reflexivity|]. split.
  - repeat (constructor; [|repeat constructor; apply sample_angle_mono; lia]).
    constructor.
  - repeat constructor; cbn [fst snd sample_crossing];
      try apply point_on_A; apply window_on_B; lia.
Qed.


(** ** Angles *)

Lemma atan2_range (y x : R) : - PI < atan2 y x <= PI.
Proof.
  pose proof PI_RGT_0 as Hpi. unfold atan2.
  pose proof (atan_bound (y / x)) as [Hlo Hhi].
  destruct (Rlt_dec 0 x) as [Hx|Hx]; [lra|].
  destruct (Rlt_dec x 0) as [Hx'|Hx'].
  - destruct (Rle_dec 0 y) as [Hy|Hy].
    + assert (y / x <= 0).
      { unfold Rdiv. apply Rinv_lt_0_compat in Hx'. nra. }
      assert (atan (y / x) <= 0).
      { destruct (Req_dec_T (y / x) 0) as [->|Hne]; [rewrite atan_0; lra|].
        rewrite <- atan_0. left. apply atan_increasing. lra. }
      lra.
    + assert (0 < y / x).
      { unfold Rdiv. apply Rinv_lt_0_compat in Hx'. nra. }
      assert (0 < atan (y / x)).
      { rewrite <- atan_0. apply atan_increasing. assumption. }
      lra.
  - destruct (Rlt_dec 0 y); [lra|]. destruct (Rlt_dec y 0); lra.
Qed.

Lemma py_mod_range (a m : R) : 0 < m -> 0 <= py_mod a m < m.
Proof.
  intros Hm. unfold py_mod.
  destruct (base_Int_part (a / m)) as [Hlo Hhi].
  assert (Ha : a - m * IZR (Int_part (a / m))
               = m * (a / m - IZR (Int_part (a / m)))) by (field; lra).
  rewrite Ha. set (d := a / m - IZR (Int_part (a / m))) in *.
  assert (0 <= d < 1) by (unfold d; lra).
  split; nra.
Qed.

Lemma normalize_angle_range (a : R) : 0 <= normalize_angle a < 2 * PI.
Proof.
  pose proof PI_RGT_0 as Hpi.
  pose proof (py_mod_range a (2 * PI)) as H.
  unfold normalize_angle. cbv zeta.
  destruct (Rlt_dec (py_mod a (2 * PI)) 0); lra.
Qed.

(** A raw parameter below zero is moved up by one revolution. *)
Lemma normalize_angle_negative (a : R) :
  - PI < a < 0 -> normalize_angle a = a + 2 * PI.
Proof.
  intros Ha. pose proof PI_RGT_0 as Hpi.
  assert (Hq : Int_part (a / (2 * PI)) = (-1)%Z).
  { symmetry. apply Int_part_spec.
    assert (Hd : a = 2 * PI * (a / (2 * PI))) by (field; lra).
    set (q := a / (2 * PI)) in *. split; nra. }
  unfold normalize_angle, py_mod. rewrite Hq. cbv zeta.
  destruct (Rlt_dec _ 0); lra.
Qed.



Lemma crossings_in_range :
  Forall (fun c => 0 <= fst c < 2 * PI /\ - PI < snd c <= PI) find_crossings.
Proof.
  rewrite find_crossings_eq.
  repeat (constructor;
          [split; [apply sample_angle_range; lia | apply atan2_range]|]).
  constructor.
Qed.


(** C6. The occlusion table gives each of the 4 crossings one winner, and
    the winner at a crossing is never the winner at the next one, the wrap
    from the last back to the first included.  The crossings are indexed in
    strictly ascending order of their parameter on A within one revolution,
    that is in angular order around the centre.  At each crossing exactly
    one band gets a gap: the one that is not the winner. *)
Theorem occlusion_alternates :
  length a_on_top = 4%nat
  /\ Forall (fun i =>
               exists top,
                 index a_on_top i = Ok top
                 /\ index a_on_top ((i + 1) mod 4)%Z = Ok (negb top))
            (range 4)
  /\ StronglySorted (fun p q => fst p < fst q) find_crossings
  /\ Forall (fun c => 0 <= fst c < 2 * PI) find_crossings
  /\ exists gaps,
       gap_halves find_crossings = Ok gaps
       /\ Forall (fun i =>
                    exists top,
                      index a_on_top i = Ok top
                      /\ if top
                         then fst gaps !! i = None
                              /\ is_Some (snd gaps !! i)
                         else is_Some (fst gaps !! i)
                              /\ snd gaps !! i = None)
                 (range 4).
Proof.
  split; [reflexivity|]. split; [|split; [|split]].
  - rewrite range_4.
    repeat constructor; eexists; split; reflexivity.
  - rewrite find_crossings_eq.
    repeat (constructor; [|repeat constructor; apply sample_angle_mono; lia]).
    constructor.
  - eapply Forall_impl; [exact crossings_in_range|].
    intros c [Hc _]. exact Hc.
  - rewrite find_crossings_eq.
    destruct (gap_halves_four
                (sample_crossing 7200 1170) (sample_crossing 7200 2427)
                (sample_crossing 7200 4770) (sample_crossing 7200 6027))
      as (g0 & g1 & g2 & g3 & _ & _ & _ & _ & _ & Hg).
    eexists. split; [exact Hg|]. rewrite range_4. cbn [fst snd].
    repeat constructor.
    + exists true. split; [reflexivity|]. split; [reflexivity|].
      exists g0. reflexivity.
    + exists false. split; [reflexivity|]. split; [|reflexivity].
      exists g1. reflexivity.
    + exists true. split; [reflexivity|]. split; [reflexivity|].
      exists g2. reflexivity.
    + exists false. split; [reflexivity|]. split; [|reflexivity].
      exists g3. reflexivity.
Qed.

(** * Further properties of the code *)

(** ** Curve model, for any radii *)

Lemma tangent_sq_nonneg (rx ry t : R) :
  0 <= - rx * sin t * (- rx * sin t) + ry * cos t * (ry * cos t).
Proof. nra. Qed.

Lemma tangent_sq_zero_iff (rx ry t : R) :
  - rx * sin t * (- rx * sin t) + ry * cos t * (ry * cos t) = 0
  <-> rx * sin t = 0 /\ ry * cos t = 0.
Proof.
  split.
  - intros H. split; nra.
  - intros [Hx Hy].
    replace (- rx * sin t) with (- (rx * sin t)) by ring.
    rewrite Hx, Hy. ring.
Qed.

(** X2. [ellipse_tangent] raises exactly where the derivative of the
    ellipse vanishes, and then a division by zero, never a domain error;
    everywhere else it returns a unit vector, whatever the signs of the
    radii.  With positive radii the derivative never vanishes. *)
Theorem ellipse_tangent_raises_iff (rx ry t : R) :
  (rx * sin t = 0 /\ ry * cos t = 0 ->
   ellipse_tangent rx ry t = Raise ZeroDivisionError)
  /\ (~ (rx * sin t = 0 /\ ry * cos t = 0) ->
      exists ux uy,
        ellipse_tangent rx ry t = Ok (ux, uy) /\ ux * ux + uy * uy = 1)
  /\ (rx <> 0 -> ry <> 0 -> ~ (rx * sin t = 0 /\ ry * cos t = 0)).
Proof.
  set (q := - rx * sin t * (- rx * sin t) + ry * cos t * (ry * cos t)).
  pose proof (tangent_sq_nonneg rx ry t) as Hq. fold q in Hq.
  split; [|split].
  - intros Hz. apply tangent_sq_zero_iff in Hz. fold q in Hz.
    unfold ellipse_tangent. cbv zeta. fold q.
    rewrite py_sqrt_Ok by lra. cbn [bind].
    rewrite Hz, sqrt_0. unfold py_div.
    destruct (Req_dec_T 0 0) as [_|Hn]; [reflexivity | contradiction].
  - intros Hnz.
    assert (Hpos : 0 < q).
    { destruct (Req_dec_T q 0) as [Hz|Hz]; [|lra].
      apply tangent_sq_zero_iff in Hz. contradiction. }
    assert (Hm : 0 < sqrt q) by apply sqrt_lt_R0, Hpos.
    assert (Hs : sqrt q * sqrt q = q) by (apply sqrt_sqrt; lra).
    unfold ellipse_tangent. cbv zeta. fold q.
    rewrite py_sqrt_Ok by lra. cbn [bind].
    rewrite !py_div_Ok by lra. cbn [bind].
    eexists _, _. split; [reflexivity|].
    field_simplify; [|lra..].
    replace (sqrt q ^ 2) with q by (simpl; lra).
    unfold q. field. fold q. lra.
  - intros Hx Hy [Hs Hc].
    apply Rmult_integral in Hs as [Hs|Hs]; [contradiction|].
    apply Rmult_integral in Hc as [Hc|Hc]; [contradiction|].
    apply (cos_sin_0 t). split; assumption.
Qed.

Lemma ellipse_tangent_raises_iff_witness :
  ellipse_tangent 0 0 1 = Raise ZeroDivisionError.
Proof.
  apply (proj1 (ellipse_tangent_raises_iff 0 0 1)). split; ring.
Defined.

(** X3. The unit tangent scaled by the tangent speed is the derivative of
    the ellipse: whenever both functions return, tangent times speed is
    (-rx sin t, ry cos t), and the speed is positive. *)
Theorem tangent_times_speed (rx ry t ux uy v : R) :
  ellipse_tangent rx ry t = Ok (ux, uy) ->
  ellipse_tangent_speed rx ry t = Ok v ->
  ux * v = - rx * sin t /\ uy * v = ry * cos t /\ 0 < v.
Proof.
  unfold ellipse_tangent, ellipse_tangent_speed. cbv zeta.
  set (q := - rx * sin t * (- rx * sin t) + ry * cos t * (ry * cos t)).
  pose proof (tangent_sq_nonneg rx ry t) as Hq. fold q in Hq.
  rewrite py_sqrt_Ok by lra. cbn [bind]. intros Ht [= <-].
  pose proof (sqrt_pos q) as Hs.
  unfold py_div in Ht. destruct (Req_dec_T (sqrt q) 0) as [|Hne];
    [discriminate|].
  cbn [bind] in Ht. injection Ht as <- <-.
  repeat split; [field; exact Hne | field; exact Hne | lra].
Qed.

Lemma tangent_times_speed_witness :
  0 * 5.5 = - A_RX * sin 0 /\ 1 * 5.5 = A_RY * cos 0 /\ 0 < 5.5.
Proof.
  exact (tangent_times_speed A_RX A_RY 0 0 1 5.5 tangent_A_0 speed_A_0).
Defined.

(** X4. The tangent speed never raises and lies between the smaller and
    the larger of the two radii in absolute value. *)
Theorem speed_between_radii (rx ry t lo hi : R) :
  0 <= lo ->
  lo <= Rabs rx <= hi ->
  lo <= Rabs ry <= hi ->
  exists v, ellipse_tangent_speed rx ry t = Ok v /\ lo <= v <= hi.
Proof.
  intros Hlo Hx Hy.
  set (q := - rx * sin t * (- rx * sin t) + ry * cos t * (ry * cos t)).
  pose proof (tangent_sq_nonneg rx ry t) as Hq. fold q in Hq.
  exists (sqrt q). split.
  { unfold ellipse_tangent_speed. cbv zeta. fold q. apply py_sqrt_Ok, Hq. }
  pose proof (sin2_cos2 t) as Hsc. unfold Rsqr in Hsc.
  assert (Hs : 0 <= sin t * sin t) by nra.
  assert (Hc : 0 <= cos t * cos t) by nra.
  assert (Hrx : rx * rx = Rabs rx * Rabs rx).
  { unfold Rabs. destruct (Rcase_abs rx); ring. }
  assert (Hry : ry * ry = Rabs ry * Rabs ry).
  { unfold Rabs. destruct (Rcase_abs ry); ring. }
  assert (Hx2 : lo * lo <= rx * rx <= hi * hi) by (rewrite Hrx; nra).
  assert (Hy2 : lo * lo <= ry * ry <= hi * hi) by (rewrite Hry; nra).
  assert (Hqe : q = rx * rx * (sin t * sin t) + ry * ry * (cos t * cos t))
    by (unfold q; ring).
  assert (Hql : lo * lo <= q) by (rewrite Hqe; nra).
  assert (Hqh : q <= hi * hi) by (rewrite Hqe; nra).
  assert (Hhi : 0 <= hi) by lra.
  rewrite <- (sqrt_square lo Hlo), <- (sqrt_square hi Hhi).
  split; apply sqrt_le_1_alt; assumption.
Qed.

Lemma speed_between_radii_witness :
  exists v, ellipse_tangent_speed A_RX A_RY 1 = Ok v /\ 5.5 <= v <= 9.
Proof.
  apply (speed_between_radii A_RX A_RY 1 5.5 9); unfold A_RX, A_RY;
    try rewrite Rabs_pos_eq; lra.
Defined.

(** ** Normalisation of angles *)

Lemma cos_sin_period_Z (x : R) (k : Z) :
  cos (x + 2 * PI * IZR k) = cos x /\ sin (x + 2 * PI * IZR k) = sin x.
Proof.
  destruct (Z_le_gt_dec 0 k) as [Hk|Hk].
  - replace (x + 2 * PI * IZR k) with (x + 2 * INR (Z.to_nat k) * PI).
    + split; [apply cos_period | apply sin_period].
    + rewrite INR_IZR_INZ, Z2Nat.id by exact Hk. ring.
  - replace x with (x + 2 * PI * IZR k + 2 * INR (Z.to_nat (- k)) * PI) at 2 4.
    + split; symmetry; [apply cos_period | apply sin_period].
    + rewrite INR_IZR_INZ, Z2Nat.id, opp_IZR by lia. ring.
Qed.

Lemma normalize_angle_eq (a : R) :
  normalize_angle a = a + 2 * PI * IZR (- Int_part (a / (2 * PI))).
Proof.
  pose proof PI_RGT_0 as Hpi.
  pose proof (py_mod_range a (2 * PI)) as H.
  unfold normalize_angle. cbv zeta.
  destruct (Rlt_dec (py_mod a (2 * PI)) 0); [lra|].
  unfold py_mod. rewrite opp_IZR. ring.
Qed.

(** X5. [normalize_angle a] is the one angle of [0, 2 pi) that differs from
    [a] by a whole number of revolutions.  So it designates the same point
    of an ellipse, it leaves the angles of [0, 2 pi) as they are, it is
    idempotent, and it forgets whole revolutions added to its argument. *)
Theorem normalize_angle_characterised (a : R) :
  0 <= normalize_angle a < 2 * PI
  /\ (exists k : Z, normalize_angle a = a + 2 * PI * IZR k)
  /\ (forall (b : R) (k : Z),
        0 <= b < 2 * PI -> b = a + 2 * PI * IZR k -> b = normalize_angle a)
  /\ (cos (normalize_angle a) = cos a /\ sin (normalize_angle a) = sin a)
  /\ (0 <= a < 2 * PI -> normalize_angle a = a)
  /\ normalize_angle (normalize_angle a) = normalize_angle a
  /\ (forall k : Z, normalize_angle (a + 2 * PI * IZR k) = normalize_angle a).
Proof.
  pose proof PI_RGT_0 as Hpi.
  assert (Huniq : forall (x b : R) (k : Z),
             0 <= b < 2 * PI -> b = x + 2 * PI * IZR k ->
             b = normalize_angle x).
  { intros x b k Hb Heq.
    pose proof (normalize_angle_range x) as Hr.
    rewrite (normalize_angle_eq x) in *.
    set (k0 := (- Int_part (x / (2 * PI)))%Z) in *.
    assert (Hd : b - (x + 2 * PI * IZR k0) = 2 * PI * IZR (k - k0))
      by (rewrite Heq, minus_IZR; ring).
    assert (Hz : (k - k0 = 0)%Z).
    { apply one_IZR_lt1. split; nra. }
    replace k0 with k by lia. exact Heq. }
  split; [apply normalize_angle_range|].
  split; [eexists; apply normalize_angle_eq|].
  split; [apply Huniq|].
  split; [rewrite normalize_angle_eq; apply cos_sin_period_Z|].
  split.
  { intros Ha. symmetry. apply (Huniq a a 0%Z Ha). ring. }
  split.
  { symmetry. apply (Huniq _ _ 0%Z); [apply normalize_angle_range | ring]. }
  intros k. symmetry.
  apply (Huniq _ _ (- Int_part (a / (2 * PI)) - k)%Z);
    [apply normalize_angle_range|].
  rewrite (normalize_angle_eq a) at 1. rewrite minus_IZR. ring.
Qed.

Lemma normalize_angle_characterised_witness : normalize_angle 1 = 1.
Proof.
  apply (normalize_angle_characterised 1).
  pose proof PI_estimate. lra.
Defined.

(** ** The angle returned by the two-argument arctangent *)

Lemma sqrt_one_plus_sq (y x : R) :
  x <> 0 ->
  sqrt (1 + (y / x)²) * Rabs x = sqrt (x * x + y * y).
Proof.
  intros Hx. symmetry. apply sqrt_lem_1.
  - nra.
  - apply Rmult_le_pos; [apply sqrt_pos | apply Rabs_pos].
  - assert (H1 : 0 <= 1 + (y / x)²) by (unfold Rsqr; nra).
    assert (Hs : sqrt (1 + (y / x)²) * sqrt (1 + (y / x)²) = 1 + (y / x)²)
      by (apply sqrt_sqrt, H1).
    assert (Ha : Rabs x * Rabs x = x * x).
    { unfold Rabs. destruct (Rcase_abs x); ring. }
    replace (sqrt (1 + (y / x)²) * Rabs x * (sqrt (1 + (y / x)²) * Rabs x))
      with (sqrt (1 + (y / x)²) * sqrt (1 + (y / x)²) * (Rabs x * Rabs x))
      by ring.
    rewrite Hs, Ha. unfold Rsqr. field. exact Hx.
Qed.

(** Away from the origin, [atan2 y x] is an angle of the point [(x, y)]. *)
Lemma atan2_cos_sin (y x : R) :
  x <> 0 \/ y <> 0 ->
  cos (atan2 y x) * sqrt (x * x + y * y) = x
  /\ sin (atan2 y x) * sqrt (x * x + y * y) = y.
Proof.
  intros Hxy. unfold atan2.
  destruct (Rlt_dec 0 x) as [Hpos|Hnpos];
    [|destruct (Rlt_dec x 0) as [Hneg|Hnneg]].
  - rewrite cos_atan, sin_atan, <- (sqrt_one_plus_sq y x) by lra.
    rewrite Rabs_pos_eq by lra.
    assert (0 < sqrt (1 + (y / x)²)).
    { apply sqrt_lt_R0. unfold Rsqr. nra. }
    split; field; lra.
  - assert (Hw : 0 < sqrt (1 + (y / x)²)).
    { apply sqrt_lt_R0. unfold Rsqr. nra. }
    destruct (Rle_dec 0 y).
    + rewrite neg_cos, neg_sin, cos_atan, sin_atan.
      rewrite <- (sqrt_one_plus_sq y x) by lra.
      rewrite Rabs_left by lra. split; field; lra.
    + replace (atan (y / x) - PI) with (- (PI - atan (y / x))) by ring.
      rewrite cos_neg, sin_neg, Rtrigo_facts.cos_pi_minus,
        Rtrigo_facts.sin_pi_minus, cos_atan, sin_atan.
      rewrite <- (sqrt_one_plus_sq y x) by lra.
      rewrite Rabs_left by lra. split; field; lra.
  - assert (Hx0 : x = 0) by lra. subst x.
    replace (0 * 0 + y * y) with (y * y) by ring.
    destruct (Rlt_dec 0 y); [|destruct (Rlt_dec y 0)].
    + rewrite cos_PI2, sin_PI2, sqrt_square by lra. lra.
    + rewrite cos_neg, sin_neg, cos_PI2, sin_PI2.
      replace (y * y) with (- y * - y) by ring.
      rewrite sqrt_square by lra. lra.
    + destruct Hxy; lra.
Qed.

(** ** The sampling loop, for any resolution *)

(** When a point of A satisfies the implicit equation of B within 0.003,
    the point of B at the recovered parameter is within 0.02 of it in each
    coordinate. *)
Lemma close_on_B (t : R) :
  let xa := A_RX * cos t in
  let ya := A_RY * sin t in
  let tb := atan2 (ya / B_RY) (xa / B_RX) in
  Rabs (implicit B_RX B_RY xa ya - 1) < 0.003 ->
  Rabs (B_RX * cos tb - xa) <= 0.02 /\ Rabs (B_RY * sin tb - ya) <= 0.02.
Proof.
  intros xa ya tb. unfold implicit.
  set (cb := xa / B_RX) in *. set (sb := ya / B_RY) in *. intros Hr.
  assert (Hr2 : 0.997 < cb * cb + sb * sb < 1.003).
  { revert Hr. unfold Rabs. destruct (Rcase_abs _); lra. }
  set (rho := sqrt (cb * cb + sb * sb)).
  assert (Hrho2 : rho * rho = cb * cb + sb * sb)
    by (apply sqrt_sqrt; lra).
  assert (Hrho0 : 0 <= rho) by apply sqrt_pos.
  assert (Hrho : 0.998 < rho < 1.002) by (split; nra).
  destruct (atan2_cos_sin sb cb) as [Hc Hs].
  { destruct (Req_dec_T cb 0) as [Hz|Hz]; [|left; exact Hz].
    right. intros Hz'. rewrite Hz, Hz' in Hr2. lra. }
  fold tb rho in Hc, Hs.
  assert (Hxa : xa = B_RX * cb) by (unfold cb, B_RX; field; lra).
  assert (Hya : ya = B_RY * sb) by (unfold sb, B_RY; field; lra).
  pose proof (COS_bound tb) as Hcb. pose proof (SIN_bound tb) as Hsb.
  rewrite Hxa, Hya, <- Hc, <- Hs. unfold B_RX, B_RY.
  set (c := cos tb) in *. set (s := sin tb) in *.
  split; apply Rabs_le; split; nra.
Qed.

(** What one iteration does: nothing, or it records the sample, which was
    then within tolerance of B and away from every recorded crossing. *)
Lemma crossing_step_cases (N : Z) (st : list (R * R)) (i : Z) :
  crossing_step N st i = st
  \/ (crossing_step N st i = st ++ [sample_crossing N i]
      /\ Rabs (implicit B_RX B_RY (A_RX * cos (sample_angle N i))
                 (A_RY * sin (sample_angle N i)) - 1) < 0.003
      /\ Forall (fun c => 0.05 <= Rabs (sample_angle N i - fst c)) st).
Proof.
  unfold crossing_step, sample_crossing, implicit.
  fold (sample_angle N i). cbv zeta.
  destruct (Rltb 1.0 _ || Rltb 1.0 _); [left; reflexivity|].
  destruct (Rltb (Rabs _) 0.003) eqn:Hr; [|left; reflexivity].
  destruct (existsb _ st) eqn:Hd; [left; reflexivity|].
  right. split; [reflexivity|]. split.
  - apply Rltb_true in Hr.
    match goal with
    | |- Rabs ?a < _ =>
        match type of Hr with
        | Rabs ?b < _ => replace a with b by lra
        end
    end.
    exact Hr.
  - apply Forall_forall. intros c Hc.
    destruct (Rle_dec 0.05 (Rabs (sample_angle N i - fst c))) as [|Hn];
      [assumption|].
    assert (Ht : existsb (fun c => Rltb (Rabs (sample_angle N i - fst c)) 0.05)
                   st = true).
    { apply existsb_exists. exists c.
      split; [apply list_elem_of_In, Hc | apply Rltb_true; lra]. }
    rewrite Ht in Hd. discriminate.
Qed.

(** X6. Whatever the resolution and the samples visited, the sampling loop
    of [find_crossings] keeps this: every recorded crossing is the crossing
    of a visited sample, the point of A at its first parameter satisfies
    the implicit equation of B within 0.003, the point of B at its second
    parameter is within 0.02 of that point in each coordinate, any two
    recorded crossings are at least 0.05 apart in the parameter on A, and
    no more crossings are recorded than samples visited. *)
Theorem sampling_loop_invariants (N : Z) (l : list Z) :
  let crossings := fold_left (crossing_step N) l [] in
  Forall (fun c =>
            let xa := A_RX * cos (fst c) in
            let ya := A_RY * sin (fst c) in
            (exists i, In i l /\ c = sample_crossing N i)
            /\ Rabs (implicit B_RX B_RY xa ya - 1) < 0.003
            /\ Rabs (B_RX * cos (snd c) - xa) <= 0.02
            /\ Rabs (B_RY * sin (snd c) - ya) <= 0.02)
         crossings
  /\ ForallOrdPairs (fun c c' => 0.05 <= Rabs (fst c' - fst c)) crossings
  /\ (length crossings <= length l)%nat.
Proof.
  cbv zeta. induction l as [|i l IH] using rev_ind.
  - split; [constructor|]. split; [constructor | simpl; lia].
  - destruct IH as (IH1 & IH2 & IH3).
    rewrite fold_left_app, length_app. cbn [fold_left length].
    set (st := fold_left (crossing_step N) l []) in *.
    assert (IH1' :
             Forall (fun c =>
                       let xa := A_RX * cos (fst c) in
                       let ya := A_RY * sin (fst c) in
                       (exists k, In k (l ++ [i]) /\ c = sample_crossing N k)
                       /\ Rabs (implicit B_RX B_RY xa ya - 1) < 0.003
                       /\ Rabs (B_RX * cos (snd c) - xa) <= 0.02
                       /\ Rabs (B_RY * sin (snd c) - ya) <= 0.02) st).
    { eapply Forall_impl; [exact IH1|].
      intros c ((k & Hk & Hc) & Hrest). split; [|exact Hrest].
      exists k. split; [apply in_or_app; left; exact Hk | exact Hc]. }
    destruct (crossing_step_cases N st i) as [->|(-> & Hr & Hfar)].
    { split; [exact IH1'|]. split; [exact IH2 | lia]. }
    split; [|split].
    + apply Forall_app. split; [exact IH1'|].
      constructor; [|constructor]. cbn [fst snd sample_crossing].
      split.
      { exists i. split; [apply in_or_app; right; left|]; reflexivity. }
      split; [exact Hr|]. apply close_on_B, Hr.
    + clear IH1 IH1' IH3. induction IH2 as [|c st' Hc Hst' IHst'].
      * repeat constructor.
      * inversion Hfar as [|? ? Hc' Hfar']; subst.
        cbn [app]. constructor.
        -- apply Forall_app. split; [exact Hc|].
           constructor; [exact Hc' | constructor].
        -- apply IHst', Hfar'.
    + rewrite length_app. simpl. lia.
Qed.

(** ** More on the gap calculator *)

Lemma tangent_B_0 : ellipse_tangent B_RX B_RY 0 = Ok (0, 1).
Proof.
  rewrite ellipse_tangent_eq by auto with radii.
  rewrite sin_0, cos_0.
  replace (- B_RX * 0 * (- B_RX * 0) + B_RY * 1 * (B_RY * 1))
    with (B_RY * B_RY) by ring.
  rewrite sqrt_square by (unfold B_RY; lra).
  do 2 f_equal; unfold B_RX, B_RY; lra.
Qed.

(** X7. The near-parallel floor: when the tangent angle at a crossing is at
    most 0.01 the sine is replaced by 0.01, so the gap half-angle is
    (thickness / 0.01 / 2 + margin) divided by the tangent speed of the
    under-band, whatever the angle. *)
Theorem gap_half_at_floor (ta tb : R) (under_is_a : bool)
    (tA tB : R * R) (speed : R) :
  ellipse_tangent A_RX A_RY ta = Ok tA ->
  ellipse_tangent B_RX B_RY tb = Ok tB ->
  (if under_is_a then ellipse_tangent_speed A_RX A_RY ta
   else ellipse_tangent_speed B_RX B_RY tb) = Ok speed ->
  acos (Rmin (Rabs (fst tA * fst tB + snd tA * snd tB)) 1.0) <= 0.01 ->
  crossing_gap_half ta tb under_is_a
  = Ok ((THICKNESS / 0.01 / 2 + GAP_MARGIN) / speed).
Proof.
  intros HA HB Hs Hfloor.
  destruct (under_speed_pos ta tb under_is_a) as (speed' & Hs' & Hpos).
  rewrite Hs in Hs'. injection Hs' as <-.
  rewrite (crossing_gap_half_eq ta tb under_is_a tA tB speed HA HB Hs Hpos).
  cbv zeta.
  destruct (Rlt_dec 0.01 _) as [Hgt|_]; [lra | reflexivity].
Qed.

Lemma gap_half_at_floor_witness :
  crossing_gap_half 0 0 true = Ok ((THICKNESS / 0.01 / 2 + GAP_MARGIN) / 5.5).
Proof.
  apply (gap_half_at_floor 0 0 true (0, 1) (0, 1) 5.5
           tangent_A_0 tangent_B_0 speed_A_0).
  cbn [fst snd].
  replace (0 * 0 + 1 * 1) with 1 by ring.
  rewrite Rabs_R1.
  unfold Rmin. destruct (Rle_dec 1 1.0); rewrite ?acos_1;
    [lra | replace 1.0 with 1 by lra; rewrite acos_1; lra].
Defined.

(** X8. The two choices of under-band at one crossing cut the same width:
    the gap half-angle times the tangent speed of the band it is cut from
    is the same for ring A and for ring B, namely half the projected width
    plus the margin. *)
Theorem gap_width_same_for_both_bands (ta tb : R) :
  exists gA gB vA vB,
    crossing_gap_half ta tb true = Ok gA
    /\ crossing_gap_half ta tb false = Ok gB
    /\ ellipse_tangent_speed A_RX A_RY ta = Ok vA
    /\ ellipse_tangent_speed B_RX B_RY tb = Ok vB
    /\ gA * vA = gB * vB
    /\ GAP_MARGIN < gA * vA.
Proof.
  destruct (under_speed_pos ta tb true) as (vA & HvA & PA).
  destruct (under_speed_pos ta tb false) as (vB & HvB & PB).
  pose proof (ellipse_tangent_eq A_RX A_RY A_RX_pos A_RY_pos ta) as HA.
  pose proof (ellipse_tangent_eq B_RX B_RY B_RX_pos B_RY_pos tb) as HB.
  cbv zeta in HA, HB.
  pose proof (crossing_gap_half_eq ta tb true _ _ vA HA HB HvA PA) as EA.
  pose proof (crossing_gap_half_eq ta tb false _ _ vB HA HB HvB PB) as EB.
  cbv zeta in EA, EB.
  eexists _, _, vA, vB.
  split; [exact EA|]. split; [exact EB|].
  split; [exact HvA|]. split; [exact HvB|].
  match goal with
  | |- (?w / 2 + GAP_MARGIN) / vA * vA = _ /\ _ => set (half := w / 2)
  end.
  assert (Hh : 0 < half).
  { unfold half. apply Rdiv_lt_0_compat; [|lra].
    apply Rdiv_lt_0_compat; [unfold THICKNESS; lra|].
    apply sin_cross_pos, acos_first_quadrant, clamp_range. }
  replace ((half + GAP_MARGIN) / vA * vA) with (half + GAP_MARGIN)
    by (field; lra).
  replace ((half + GAP_MARGIN) / vB * vB) with (half + GAP_MARGIN)
    by (field; lra).
  split; [reflexivity | lra].
Qed.

Lemma tangent_half_turn (rx ry t : R) :
  0 < rx -> 0 < ry ->
  exists ux uy,
    ellipse_tangent rx ry t = Ok (ux, uy)
    /\ ellipse_tangent rx ry (t + PI) = Ok (- ux, - uy)
    /\ ellipse_tangent_speed rx ry (t + PI) = ellipse_tangent_speed rx ry t.
Proof.
  intros Hx Hy.
  rewrite !ellipse_tangent_eq, !ellipse_tangent_speed_eq by assumption.
  rewrite neg_sin, neg_cos.
  replace (- rx * - sin t * (- rx * - sin t) + ry * - cos t * (ry * - cos t))
    with (- rx * sin t * (- rx * sin t) + ry * cos t * (ry * cos t)) by ring.
  eexists _, _. split; [reflexivity|]. split; [|reflexivity].
  pose proof (tangent_sq_pos rx ry Hx Hy t) as Hq.
  apply sqrt_lt_R0 in Hq.
  do 2 f_equal; field; lra.
Qed.

(** X9. The gap depends on the tangent lines only, not on the direction of
    travel: moving either parameter by half a turn, which reverses that
    band's tangent, leaves the gap half-angle as it is. *)
Theorem gap_half_half_turn (ta tb : R) (under_is_a : bool) :
  crossing_gap_half (ta + PI) tb under_is_a
  = crossing_gap_half ta tb under_is_a
  /\ crossing_gap_half ta (tb + PI) under_is_a
     = crossing_gap_half ta tb under_is_a.
Proof.
  destruct (tangent_half_turn A_RX A_RY ta A_RX_pos A_RY_pos)
    as (ax & ay & HA & HA' & HsA).
  destruct (tangent_half_turn B_RX B_RY tb B_RX_pos B_RY_pos)
    as (bx & b_y & HB & HB' & HsB).
  unfold crossing_gap_half.
  rewrite HA, HA', HB, HB', HsA, HsB. cbn [bind fst snd].
  replace (- ax * bx + - ay * b_y) with (- (ax * bx + ay * b_y)) by ring.
  replace (ax * - bx + ay * - b_y) with (- (ax * bx + ay * b_y)) by ring.
  rewrite Rabs_Ropp. split; reflexivity.
Qed.

(** ** Outlines *)

Lemma range_nonpos (n : Z) : (n <= 0)%Z -> range n = [].
Proof.
  intros H. unfold range. replace (Z.to_nat n) with 0%nat by lia. reflexivity.
Qed.

Lemma mapM_pure {A B : Type} (f : A -> res B) (g : A -> B) (l : list A) :
  (forall x, In x l -> f x = Ok (g x)) -> mapM f l = Ok (map g l).
Proof.
  induction l as [|x l IH]; intros H; [reflexivity|].
  cbn [mapM map]. rewrite (H x) by (left; reflexivity). cbn [bind].
  rewrite IH by (intros y Hy; apply H; right; exact Hy). reflexivity.
Qed.

(** The points that [arc_points] returns when the number of samples is not
    zero. *)
Lemma arc_points_eq (cx cy rx ry t_from t_to : R) (samples : Z) :
  samples <> 0%Z ->
  arc_points cx cy rx ry t_from t_to samples
  = Ok (map (fun i =>
               let t := t_from + (t_to - t_from) * IZR i / IZR samples in
               (cx + rx * cos t, cy + ry * sin t))
            (range (samples + 1))).
Proof.
  intros Hs. unfold arc_points. apply mapM_pure. intros i _.
  rewrite py_div_Ok by (apply not_0_IZR, Hs). reflexivity.
Qed.

(** X10. The error behaviour of [arc_path_annulus] in its number of
    samples: a negative number leaves the list of points empty and the
    first point is then missing (an index error); zero divides by zero at
    the first sample; a positive number always gives a path. *)
Theorem arc_path_annulus_errors (cx cy rx ry thickness t_start t_end : R)
    (samples : Z) :
  ((samples < 0)%Z ->
   arc_path_annulus cx cy rx ry thickness t_start t_end samples
   = Raise IndexError)
  /\ (samples = 0%Z ->
      arc_path_annulus cx cy rx ry thickness t_start t_end samples
      = Raise ZeroDivisionError)
  /\ ((0 < samples)%Z ->
      exists d,
        arc_path_annulus cx cy rx ry thickness t_start t_end samples = Ok d).
Proof.
  split; [|split].
  - intros Hneg. unfold arc_path_annulus, arc_points. cbv zeta.
    rewrite range_nonpos by lia. reflexivity.
  - intros ->. unfold arc_path_annulus, arc_points. cbv zeta.
    change (range (0 + 1)) with [0%Z]. cbn [mapM bind].
    unfold py_div. destruct (Req_dec_T 0 0) as [_|Hn];
      [reflexivity | contradiction].
  - apply arc_path_annulus_total.
Qed.

Lemma arc_path_annulus_errors_witness :
  arc_path_annulus CX CY A_RX A_RY THICKNESS 0 1 0 = Raise ZeroDivisionError.
Proof.
  apply (arc_path_annulus_errors CX CY A_RX A_RY THICKNESS 0 1 0).
  reflexivity.
Defined.

Lemma range_succ (n : Z) :
  (0 <= n)%Z -> range (n + 1) = range n ++ [n].
Proof.
  intros H. unfold range.
  replace (Z.to_nat (n + 1)) with (Z.to_nat n + 1)%nat by lia.
  rewrite seq_app, map_app. cbn [seq map]. f_equal. f_equal. lia.
Qed.

Lemma range_pos_cons (n : Z) :
  (0 < n)%Z -> exists l, range n = 0%Z :: l.
Proof.
  intros H. unfold range.
  destruct (Z.to_nat n) as [|k] eqn:Hk; [lia|].
  cbn [seq map]. eauto.
Qed.

(** X11. With a positive number of samples, one walk of [arc_path_annulus]
    along an offset ellipse returns one point more than the number of
    samples; the first is the point of the ellipse at the parameter the
    walk starts from and the last the point at the parameter it ends at;
    every point satisfies the implicit equation of the ellipse about the
    centre, and so stays within the radii of the centre. *)
Theorem arc_points_geometry (cx cy rx ry t_from t_to : R) (samples : Z) :
  (0 < samples)%Z ->
  exists pts,
    arc_points cx cy rx ry t_from t_to samples = Ok pts
    /\ length pts = Z.to_nat (samples + 1)
    /\ head pts = Some (cx + rx * cos t_from, cy + ry * sin t_from)
    /\ last pts = Some (cx + rx * cos t_to, cy + ry * sin t_to)
    /\ (rx <> 0 -> ry <> 0 ->
        Forall (fun p => implicit rx ry (fst p - cx) (snd p - cy) = 1) pts)
    /\ Forall (fun p => Rabs (fst p - cx) <= Rabs rx
                        /\ Rabs (snd p - cy) <= Rabs ry) pts.
Proof.
  intros Hs. eexists. split; [apply arc_points_eq; lia|].
  assert (Hn : IZR samples <> 0) by (apply not_0_IZR; lia).
  split; [rewrite length_map; apply range_length|].
  split; [|split; [|split]].
  - destruct (range_pos_cons (samples + 1)) as (l & ->); [lia|].
    cbn [map head].
    replace (t_from + (t_to - t_from) * 0 / IZR samples) with t_from
      by (field; exact Hn).
    reflexivity.
  - rewrite range_succ, map_app by lia. cbn [map].
    rewrite last_snoc.
    replace (t_from + (t_to - t_from) * IZR samples / IZR samples) with t_to
      by (field; exact Hn).
    reflexivity.
  - intros Hx Hy. apply Forall_forall. intros p Hp.
    apply list_elem_of_In, in_map_iff in Hp as (i & <- & _).
    cbn [fst snd]. unfold implicit.
    set (t := t_from + (t_to - t_from) * IZR i / IZR samples).
    pose proof (sin2_cos2 t) as H. unfold Rsqr in H.
    replace ((cx + rx * cos t - cx) / rx) with (cos t) by (field; exact Hx).
    replace ((cy + ry * sin t - cy) / ry) with (sin t) by (field; exact Hy).
    lra.
  - apply Forall_forall. intros p Hp.
    apply list_elem_of_In, in_map_iff in Hp as (i & <- & _).
    cbn [fst snd].
    set (t := t_from + (t_to - t_from) * IZR i / IZR samples).
    replace (cx + rx * cos t - cx) with (rx * cos t) by ring.
    replace (cy + ry * sin t - cy) with (ry * sin t) by ring.
    rewrite !Rabs_mult.
    pose proof (Rabs_pos rx). pose proof (Rabs_pos ry).
    assert (Rabs (cos t) <= 1) by (apply Rabs_le, COS_bound).
    assert (Rabs (sin t) <= 1) by (apply Rabs_le, SIN_bound).
    split; nra.
Qed.

Lemma arc_points_geometry_witness :
  exists pts,
    arc_points CX CY 10.1 6.6 0 1 ARC_SAMPLES = Ok pts
    /\ length pts = 61%nat.
Proof.
  destruct (arc_points_geometry CX CY 10.1 6.6 0 1 ARC_SAMPLES)
    as (pts & Hpts & Hlen & _); [reflexivity|].
  exists pts. split; [exact Hpts | exact Hlen].
Defined.

(** ** Bounds on the cosine and on the arctangent *)

Lemma cos_lb_poly (x : R) :
  cos_lb x = 1 - x ^ 2 / 2 + x ^ 4 / 24 - x ^ 6 / 720.
Proof.
  unfold cos_lb, cos_approx, sum_f_R0, cos_term.
  rewrite !fact_IZR.
  change (IZR (Z.of_nat (fact (2 * 0)))) with 1.
  change (IZR (Z.of_nat (fact (2 * 1)))) with 2.
  change (IZR (Z.of_nat (fact (2 * 2)))) with 24.
  change (IZR (Z.of_nat (fact (2 * 3)))) with 720.
  simpl. field.
Qed.

Lemma cos_above (x : R) : 0 <= x <= 1 -> 1 - x * x / 2 <= cos x.
Proof.
  intros Hx. pose proof PI_estimate as [Hl Hu].
  destruct (COS x) as [Hlb _]; [lra..|].
  rewrite cos_lb_poly in Hlb.
  assert (0 <= x ^ 4 / 24 - x ^ 6 / 720).
  { replace (x ^ 4 / 24 - x ^ 6 / 720)
      with (x * x * (x * x) * (30 - x * x) / 720) by field.
    assert (0 <= x * x <= 1) by nra.
    apply Rmult_le_pos; [|lra].
    apply Rmult_le_pos; nra. }
  replace (x ^ 2) with (x * x) in Hlb by ring. lra.
Qed.

Lemma atan_lower (x : R) : 0.6 <= x -> 0.5 <= atan x.
Proof.
  intros Hx. pose proof PI_estimate as [Hl Hu].
  assert (Hs : sin 0.5 <= 0.48).
  { destruct (SIN 0.5) as [_ Hub]; [lra..|].
    rewrite sin_ub_poly in Hub. lra. }
  assert (Hc : 0.87 <= cos 0.5).
  { pose proof (cos_above 0.5). lra. }
  assert (Ht : tan 0.5 < 0.6).
  { unfold tan, Rdiv. apply Rmult_lt_reg_r with (cos 0.5); [lra|].
    rewrite Rmult_assoc, Rinv_l by lra. nra. }
  rewrite <- (atan_tan 0.5) at 1 by lra.
  left. apply atan_increasing. lra.
Qed.

Lemma atan_upper (x : R) : x <= 1 -> atan x <= PI / 4.
Proof.
  intros Hx. rewrite <- atan_1.
  destruct (Req_dec_T x 1) as [->|Hne]; [lra|].
  left. apply atan_increasing. lra.
Qed.

(** ** The gap at a crossing whose tangents are at 30 degrees or more *)

Lemma sin_acos_lower (d : R) :
  d * d <= 0.75 ->
  let cross_angle := acos (Rmin (Rabs d) 1.0) in
  0.5 <= (if Rlt_dec 0.01 cross_angle then sin cross_angle else 0.01).
Proof.
  intros Hd cross_angle.
  pose proof (Rabs_pos d) as Ha.
  assert (Ha2 : Rabs d * Rabs d = d * d).
  { unfold Rabs. destruct (Rcase_abs d); ring. }
  assert (Ha1 : Rabs d <= 0.87) by nra.
  assert (Hm : Rmin (Rabs d) 1.0 = Rabs d).
  { unfold Rmin. destruct (Rle_dec (Rabs d) 1.0); [reflexivity | lra]. }
  unfold cross_angle. rewrite Hm.
  assert (Hr : -1 <= Rabs d <= 1) by lra.
  pose proof (acos_bound (Rabs d)) as Hb.
  destruct (Rlt_dec 0.01 (acos (Rabs d))) as [_|Hsmall].
  - rewrite sin_acos by exact Hr.
    rewrite <- (sqrt_square 0.5) by lra.
    apply sqrt_le_1_alt. unfold Rsqr. lra.
  - exfalso.
    assert (Hc : cos 0.01 <= cos (acos (Rabs d))).
    { pose proof PI_estimate. apply cos_decr_1; lra. }
    rewrite cos_acos in Hc by exact Hr.
    pose proof (cos_above 0.01). lra.
Qed.

Lemma gap_value_small (sin_cross speed : R) :
  0.5 <= sin_cross -> 5.5 <= speed ->
  0 < (THICKNESS / sin_cross / 2 + GAP_MARGIN) / speed <= 0.48.
Proof.
  intros Hs Hv. unfold THICKNESS, GAP_MARGIN.
  set (w := 2.2 / sin_cross).
  assert (Hw : w * sin_cross = 2.2) by (unfold w; field; lra).
  assert (Hw0 : 0 < w) by (apply Rdiv_lt_0_compat; lra).
  assert (Hw1 : w <= 4.4) by nra.
  set (g := (w / 2 + 0.4) / speed).
  assert (Hg : g * speed = w / 2 + 0.4) by (unfold g; field; lra).
  assert (Hg0 : 0 < g) by (apply Rdiv_lt_0_compat; lra).
  split; [exact Hg0 | nra].
Qed.

(** At a sample accepted by the sampling loop the two tangents make an
    angle of more than 30 degrees: the square of their dot product is at
    most 0.75. *)
Lemma crossing_tangents_wide (t : R) :
  0.27065 <= cos t * cos t <= 0.27302 ->
  let tb := atan2 (A_RY * sin t / B_RY) (A_RX * cos t / B_RX) in
  exists tA tB,
    ellipse_tangent A_RX A_RY t = Ok tA
    /\ ellipse_tangent B_RX B_RY tb = Ok tB
    /\ (fst tA * fst tB + snd tA * snd tB)
       * (fst tA * fst tB + snd tA * snd tB) <= 0.75.
Proof.
  intros Hu tb.
  pose proof (ellipse_tangent_eq A_RX A_RY A_RX_pos A_RY_pos t) as HA.
  pose proof (ellipse_tangent_eq B_RX B_RY B_RX_pos B_RY_pos tb) as HB.
  cbv zeta in HA, HB.
  eexists _, _. split; [exact HA|]. split; [exact HB|]. cbn [fst snd].
  pose proof (tangent_sq_pos A_RX A_RY A_RX_pos A_RY_pos t) as HqA.
  pose proof (tangent_sq_pos B_RX B_RY B_RX_pos B_RY_pos tb) as HqB.
  set (qA := - A_RX * sin t * (- A_RX * sin t)
             + A_RY * cos t * (A_RY * cos t)) in *.
  set (qB := - B_RX * sin tb * (- B_RX * sin tb)
             + B_RY * cos tb * (B_RY * cos tb)) in *.
  assert (HmA : sqrt qA * sqrt qA = qA) by (apply sqrt_sqrt; lra).
  assert (HmB : sqrt qB * sqrt qB = qB) by (apply sqrt_sqrt; lra).
  assert (HmA0 : 0 < sqrt qA) by apply sqrt_lt_R0, HqA.
  assert (HmB0 : 0 < sqrt qB) by apply sqrt_lt_R0, HqB.
  set (mA := sqrt qA) in *. set (mB := sqrt qB) in *.
  (* the recovered parameter, through its cosine and sine *)
  set (cb := A_RX * cos t / B_RX) in *.
  set (sb := A_RY * sin t / B_RY) in *.
  pose proof (sin2_cos2 t) as Hsc. unfold Rsqr in Hsc.
  set (c := cos t) in *. set (s := sin t) in *.
  assert (Hs2 : s * s = 1 - c * c) by lra.
  assert (Hcb : cb = 18 / 11 * c) by (unfold cb, A_RX, B_RX; lra).
  assert (Hsb : sb = 11 / 18 * s) by (unfold sb, A_RY, B_RY; lra).
  assert (Hr2 : 0.99 < cb * cb + sb * sb).
  { rewrite Hcb, Hsb.
    replace (18 / 11 * c * (18 / 11 * c) + 11 / 18 * s * (11 / 18 * s))
      with (324 / 121 * (c * c) + 121 / 324 * (s * s)) by lra.
    rewrite Hs2. lra. }
  set (rho := sqrt (cb * cb + sb * sb)).
  assert (Hrho2 : rho * rho = cb * cb + sb * sb) by (apply sqrt_sqrt; lra).
  assert (Hrho0 : 0 < rho) by (apply sqrt_lt_R0; lra).
  destruct (atan2_cos_sin sb cb) as [HcB HsB].
  { destruct (Req_dec_T cb 0) as [Hz|Hz]; [|left; exact Hz].
    right. intros Hz'. rewrite Hz, Hz' in Hr2. lra. }
  fold tb rho in HcB, HsB.
  set (cB := cos tb) in *. set (sB := sin tb) in *.
  (* the dot product and its square *)
  set (X := s * sB + c * cB).
  assert (Hdot : - A_RX * s / mA * (- B_RX * sB / mB)
                 + A_RY * c / mA * (B_RY * cB / mB)
                 = 99 / 2 * X / (mA * mB)).
  { unfold X, A_RX, A_RY, B_RX, B_RY.
    replace 9.0 with 9 by lra. replace 5.5 with (11 / 2) by lra.
    field. lra. }
  rewrite Hdot.
  replace (99 / 2 * X / (mA * mB) * (99 / 2 * X / (mA * mB)))
    with (9801 / 4 * (X * X) / (mA * mA * (mB * mB))) by (field; lra).
  rewrite HmA, HmB.
  apply Rmult_le_reg_r with (qA * qB); [nra|].
  replace (9801 / 4 * (X * X) / (qA * qB) * (qA * qB))
    with (9801 / 4 * (X * X)) by (field; lra).
  (* both sides times the square of rho *)
  apply Rmult_le_reg_r with (rho * rho); [nra|].
  set (Nn := 11 / 18 * (s * s) + 18 / 11 * (c * c)).
  assert (HN : X * rho = Nn).
  { unfold X, Nn.
    replace ((s * sB + c * cB) * rho)
      with (s * (sB * rho) + c * (cB * rho)) by ring.
    rewrite HcB, HsB, Hcb, Hsb. ring. }
  assert (HQ : qB * (rho * rho)
               = B_RX * B_RX * (sb * sb) + B_RY * B_RY * (cb * cb)).
  { unfold qB. rewrite <- HcB, <- HsB. ring. }
  replace (9801 / 4 * (X * X) * (rho * rho))
    with (9801 / 4 * (X * rho * (X * rho))) by ring.
  replace (0.75 * (qA * qB) * (rho * rho))
    with (0.75 * (qA * (qB * (rho * rho)))) by ring.
  rewrite HN, HQ.
  assert (HNb : 0 <= Nn <= 0.9) by (unfold Nn; rewrite Hs2; lra).
  assert (HqAb : 67 <= qA).
  { unfold qA, A_RX, A_RY.
    replace (- (9.0) * s * (- (9.0) * s) + 5.5 * c * (5.5 * c))
      with (81 * (s * s) + 30.25 * (c * c)) by lra.
    rewrite Hs2. lra. }
  assert (HQb : 66 <= B_RX * B_RX * (sb * sb) + B_RY * B_RY * (cb * cb)).
  { rewrite Hcb, Hsb. unfold B_RX, B_RY.
    replace (5.5 * 5.5 * (11 / 18 * s * (11 / 18 * s))
             + 9.0 * 9.0 * (18 / 11 * c * (18 / 11 * c)))
      with (30.25 * (121 / 324) * (s * s) + 81 * (324 / 121) * (c * c))
      by lra.
    rewrite Hs2. lra. }
  nra.
Qed.

(** So the gap half-angle there is at most 0.48, for either under-band. *)
Lemma crossing_gap_small (t : R) (under_is_a : bool) :
  0.27065 <= cos t * cos t <= 0.27302 ->
  let tb := atan2 (A_RY * sin t / B_RY) (A_RX * cos t / B_RX) in
  exists g, crossing_gap_half t tb under_is_a = Ok g /\ 0 < g <= 0.48.
Proof.
  intros Hu tb.
  destruct (crossing_tangents_wide t Hu) as (tA & tB & HA & HB & Hd).
  fold tb in HB.
  destruct (under_speed_lower t tb under_is_a) as (speed & Hs & Hlo).
  eexists. split.
  - apply (crossing_gap_half_eq t tb under_is_a tA tB speed HA HB Hs). lra.
  - cbv zeta. apply gap_value_small; [|exact Hlo].
    apply (sin_acos_lower _ Hd).
Qed.

(** ** A ring whose four crossing angles are in ascending order *)

Lemma key_not_after (p q : R * Z) :
  fst p < fst q -> not_after (fun p q => Rltb (fst p) (fst q)) p q.
Proof. intros H. unfold not_after. apply Rltb_false. cbn [fst]. lra. Qed.

Lemma sorted_indices_ascending (k0 k1 k2 k3 : R) :
  k0 < k1 -> k1 < k2 -> k2 < k3 ->
  sorted_indices [k0; k1; k2; k3] = Ok [0; 1; 2; 3]%Z.
Proof.
  intros H01 H12 H23. unfold sorted_indices. rewrite range_4.
  change (mapM (fun k => index [k0; k1; k2; k3] k) [0; 1; 2; 3]%Z)
    with (Ok [k0; k1; k2; k3] : res (list R)).
  cbn [bind].
  change (combine [k0; k1; k2; k3] [0; 1; 2; 3]%Z)
    with [(k0, 0%Z); (k1, 1%Z); (k2, 2%Z); (k3, 3%Z)].
  rewrite stable_sort_sorted_id; [reflexivity|].
  repeat (constructor; [|repeat constructor; apply key_not_after;
                          cbn [fst]; lra]).
  constructor.
Qed.

(** An iteration whose retracted arc is proper appends it. *)
Lemma segment_step_emit (rank : bool -> Z) (cross_angles : list R)
    (sorted : list Z) (gaps : gmap Z R) (segments : list segment)
    (idx ci : Z) (s e : R) (top : bool) :
  retracted_arc cross_angles sorted gaps idx = Ok (ci, (s, e)) ->
  s < e ->
  index a_on_top ci = Ok top ->
  segment_step rank cross_angles sorted gaps segments idx
  = Ok (segments ++ [(s, e, rank top)]).
Proof.
  intros Harc Hlt Htop. unfold segment_step. rewrite Harc.
  cbn [bind fst snd].
  destruct (Rle_dec e s); [lra|]. rewrite Htop. reflexivity.
Qed.

Lemma retracted_arc_ascending (k0 k1 k2 k3 : R) (gaps : gmap Z R) :
  k0 < k1 -> k1 < k2 -> k2 < k3 ->
  let ca := [k0; k1; k2; k3] in
  let sorted := [0; 1; 2; 3]%Z in
  retracted_arc ca sorted gaps 0
  = Ok (0%Z, (advanced gaps 0 k0, retracted gaps 1 k1))
  /\ retracted_arc ca sorted gaps 1
     = Ok (1%Z, (advanced gaps 1 k1, retracted gaps 2 k2))
  /\ retracted_arc ca sorted gaps 2
     = Ok (2%Z, (advanced gaps 2 k2, retracted gaps 3 k3))
  /\ retracted_arc ca sorted gaps 3
     = Ok (3%Z, (advanced gaps 3 k3, retracted gaps 0 (k0 + 2 * PI))).
Proof.
  intros H01 H12 H23 ca sorted. unfold retracted_arc, advanced, retracted.
  repeat split.
  - change (index sorted 0) with (Ok 0%Z : res Z). cbn [bind].
    change (index sorted ((0 + 1) mod 4)) with (Ok 1%Z : res Z). cbn [bind].
    change (index ca 0) with (Ok k0 : res R). cbn [bind].
    change (index ca 1) with (Ok k1 : res R). cbn [bind].
    destruct (Rle_dec k1 k0); [lra | reflexivity].
  - change (index sorted 1) with (Ok 1%Z : res Z). cbn [bind].
    change (index sorted ((1 + 1) mod 4)) with (Ok 2%Z : res Z). cbn [bind].
    change (index ca 1) with (Ok k1 : res R). cbn [bind].
    change (index ca 2) with (Ok k2 : res R). cbn [bind].
    destruct (Rle_dec k2 k1); [lra | reflexivity].
  - change (index sorted 2) with (Ok 2%Z : res Z). cbn [bind].
    change (index sorted ((2 + 1) mod 4)) with (Ok 3%Z : res Z). cbn [bind].
    change (index ca 2) with (Ok k2 : res R). cbn [bind].
    change (index ca 3) with (Ok k3 : res R). cbn [bind].
    destruct (Rle_dec k3 k2); [lra | reflexivity].
  - change (index sorted 3) with (Ok 3%Z : res Z). cbn [bind].
    change (index sorted ((3 + 1) mod 4)) with (Ok 0%Z : res Z). cbn [bind].
    change (index ca 3) with (Ok k3 : res R). cbn [bind].
    change (index ca 0) with (Ok k0 : res R). cbn [bind].
    destruct (Rle_dec k0 k3); [reflexivity | lra].
Qed.

(** When the angles ascend and no arc is turned inside out by its gaps, the
    ring has its four segments, in the order of the crossings, with the
    rank of the table at each start crossing. *)
Lemma ring_segments_ascending (rank : bool -> Z) (k0 k1 k2 k3 : R)
    (gaps : gmap Z R) :
  k0 < k1 -> k1 < k2 -> k2 < k3 ->
  advanced gaps 0 k0 < retracted gaps 1 k1 ->
  advanced gaps 1 k1 < retracted gaps 2 k2 ->
  advanced gaps 2 k2 < retracted gaps 3 k3 ->
  advanced gaps 3 k3 < retracted gaps 0 (k0 + 2 * PI) ->
  ring_segments rank [k0; k1; k2; k3] gaps
  = Ok [(advanced gaps 0 k0, retracted gaps 1 k1, rank true);
        (advanced gaps 1 k1, retracted gaps 2 k2, rank false);
        (advanced gaps 2 k2, retracted gaps 3 k3, rank true);
        (advanced gaps 3 k3, retracted gaps 0 (k0 + 2 * PI), rank false)].
Proof.
  intros H01 H12 H23 A0 A1 A2 A3.
  destruct (retracted_arc_ascending k0 k1 k2 k3 gaps H01 H12 H23)
    as (R0 & R1 & R2 & R3). cbv zeta in R0, R1, R2, R3.
  unfold ring_segments.
  rewrite (sorted_indices_ascending k0 k1 k2 k3 H01 H12 H23).
  cbn [bind]. rewrite range_4. cbn [foldM].
  rewrite (segment_step_emit rank _ _ gaps [] 0 0 _ _ true R0 A0 eq_refl).
  cbn [bind app].
  rewrite (segment_step_emit rank _ _ gaps _ 1 1 _ _ false R1 A1 eq_refl).
  cbn [bind app].
  rewrite (segment_step_emit rank _ _ gaps _ 2 2 _ _ true R2 A2 eq_refl).
  cbn [bind app].
  rewrite (segment_step_emit rank _ _ gaps _ 3 3 _ _ false R3 A3 eq_refl).
  reflexivity.
Qed.

(** ** The four crossings of the default rings, in detail *)

Lemma normalize_angle_id (a : R) :
  0 <= a < 2 * PI -> normalize_angle a = a.
Proof.
  intros Ha. pose proof PI_RGT_0 as Hpi.
  assert (Hq : Int_part (a / (2 * PI)) = 0%Z).
  { symmetry. apply Int_part_spec.
    assert (Hd : a = 2 * PI * (a / (2 * PI))) by (field; lra).
    set (q := a / (2 * PI)) in *. split; nra. }
  unfold normalize_angle, py_mod. rewrite Hq. cbv zeta.
  destruct (Rlt_dec _ 0); lra.
Qed.

Lemma window_cos_sq (i : Z) :
  (1170 <= i <= 1173)%Z \/ (2427 <= i <= 2430)%Z \/ (4770 <= i <= 4773)%Z
  \/ (6027 <= i <= 6030)%Z ->
  0.27065 <= cos (sample_angle 7200 i) * cos (sample_angle 7200 i)
  <= 0.27302.
Proof.
  intros H. destruct (quadrant i) as (j & Hj & Hm); [lia|].
  rewrite (cos_sq_mirror i j Hm). apply cos_sq_in_window. lia.
Qed.

(** The signs of the cosine and of the sine at the recorded samples: one
    sample in each quadrant. *)
Lemma recorded_signs :
  (0 < cos (sample_angle 7200 1170) /\ 0 < sin (sample_angle 7200 1170))
  /\ (cos (sample_angle 7200 2427) < 0 /\ 0 < sin (sample_angle 7200 2427))
  /\ (cos (sample_angle 7200 4770) < 0 /\ sin (sample_angle 7200 4770) < 0)
  /\ (0 < cos (sample_angle 7200 6027) /\ sin (sample_angle 7200 6027) < 0).
Proof.
  pose proof PI_RGT_0 as Hpi. rewrite !sample_angle_7200.
  repeat split.
  - apply cos_gt_0; lra.
  - apply sin_gt_0; lra.
  - apply cos_lt_0; lra.
  - apply sin_gt_0; lra.
  - apply cos_lt_0; lra.
  - apply sin_lt_0; lra.
  - pose proof (window_cos_sq 6027) as Hw.
    rewrite sample_angle_7200 in Hw.
    assert (0 <= cos (PI * 6027 / 3600)) by (apply cos_ge_0_3PI2; lra).
    assert (0.27065 <= cos (PI * 6027 / 3600) * cos (PI * 6027 / 3600))
      by (apply Hw; lia).
    nra.
  - apply sin_lt_0; lra.
Qed.

(** Where the recovered parameter on B lies, by the quadrant of the
    sample. *)
Lemma recovered_parameter_bounds (t : R) :
  0.27065 <= cos t * cos t <= 0.27302 ->
  let tb := atan2 (A_RY * sin t / B_RY) (A_RX * cos t / B_RX) in
  (0 < cos t -> 0 < sin t -> 0.5 <= tb <= PI / 4)
  /\ (cos t < 0 -> 0 < sin t -> 3 * PI / 4 <= tb <= PI - 0.5)
  /\ (cos t < 0 -> sin t < 0 -> - PI + 0.5 <= tb <= - (3 * PI / 4))
  /\ (0 < cos t -> sin t < 0 -> - (PI / 4) <= tb <= - 0.5).
Proof.
  intros Hu tb. unfold tb, atan2.
  pose proof (sin2_cos2 t) as Hsc. unfold Rsqr in Hsc.
  set (c := cos t) in *. set (s := sin t) in *.
  assert (Hs2 : s * s = 1 - c * c) by lra.
  assert (Hcb : A_RX * c / B_RX = 18 / 11 * c)
    by (unfold A_RX, B_RX; lra).
  assert (Hsb : A_RY * s / B_RY = 11 / 18 * s)
    by (unfold A_RY, B_RY; lra).
  rewrite Hcb, Hsb.
  set (r := 11 / 18 * s / (18 / 11 * c)).
  assert (Hc0 : c <> 0) by nra.
  assert (Hr : r * c = 121 / 324 * s) by (unfold r; field; exact Hc0).
  assert (Hr2 : 0.36 <= r * r <= 1).
  { assert (Hrc : r * r * (c * c) = 121 / 324 * (121 / 324) * (s * s)).
    { replace (r * r * (c * c)) with (r * c * (r * c)) by ring.
      rewrite Hr. ring. }
    rewrite Hs2 in Hrc. split; nra. }
  repeat split.
  - destruct (Rlt_dec 0 (18 / 11 * c)); [|lra].
    assert (0 < r) by nra.
    apply atan_lower. nra.
  - destruct (Rlt_dec 0 (18 / 11 * c)); [|lra].
    apply atan_upper. nra.
  - destruct (Rlt_dec 0 (18 / 11 * c)); [lra|].
    destruct (Rlt_dec (18 / 11 * c) 0); [|lra].
    destruct (Rle_dec 0 (11 / 18 * s)); [|lra].
    assert (r < 0) by nra.
    pose proof (atan_upper (- r)) as Hup. rewrite atan_opp in Hup.
    assert (- r <= 1) by nra. lra.
  - destruct (Rlt_dec 0 (18 / 11 * c)); [lra|].
    destruct (Rlt_dec (18 / 11 * c) 0); [|lra].
    destruct (Rle_dec 0 (11 / 18 * s)); [|lra].
    assert (r < 0) by nra.
    pose proof (atan_lower (- r)) as Hlo. rewrite atan_opp in Hlo.
    assert (0.6 <= - r) by nra. lra.
  - destruct (Rlt_dec 0 (18 / 11 * c)); [lra|].
    destruct (Rlt_dec (18 / 11 * c) 0); [|lra].
    destruct (Rle_dec 0 (11 / 18 * s)); [lra|].
    assert (0 < r) by nra.
    pose proof (atan_lower r) as Hlo. assert (0.6 <= r) by nra. lra.
  - destruct (Rlt_dec 0 (18 / 11 * c)); [lra|].
    destruct (Rlt_dec (18 / 11 * c) 0); [|lra].
    destruct (Rle_dec 0 (11 / 18 * s)); [lra|].
    pose proof (atan_upper r) as Hup. assert (r <= 1) by nra. lra.
  - destruct (Rlt_dec 0 (18 / 11 * c)); [|lra].
    assert (r < 0) by nra.
    pose proof (atan_upper (- r)) as Hup. rewrite atan_opp in Hup.
    assert (- r <= 1) by nra. lra.
  - destruct (Rlt_dec 0 (18 / 11 * c)); [|lra].
    assert (r < 0) by nra.
    pose proof (atan_lower (- r)) as Hlo. rewrite atan_opp in Hlo.
    assert (0.6 <= - r) by nra. lra.
Qed.

(** ** The default run, to its end *)

Ltac gap_lookup :=
  unfold advanced, retracted;
  repeat first [ rewrite lookup_insert_eq
               | rewrite lookup_insert_ne by lia
               | rewrite lookup_empty ].

(** The four gap half-angles of the default run are at most 0.48. *)
Lemma default_gaps :
  exists g0 g1 g2 g3,
    (0 < g0 <= 0.48 /\ 0 < g1 <= 0.48 /\ 0 < g2 <= 0.48 /\ 0 < g3 <= 0.48)
    /\ gap_halves find_crossings
       = Ok (<[3%Z := g3]> (<[1%Z := g1]> ∅),
             <[2%Z := g2]> (<[0%Z := g0]> ∅)).
Proof.
  rewrite find_crossings_eq.
  destruct (gap_halves_four
              (sample_crossing 7200 1170) (sample_crossing 7200 2427)
              (sample_crossing 7200 4770) (sample_crossing 7200 6027))
    as (g0 & g1 & g2 & g3 & H0 & H1 & H2 & H3 & _ & Hg).
  cbn [fst snd sample_crossing] in H0, H1, H2, H3.
  destruct (crossing_gap_small (sample_angle 7200 1170) false)
    as (g0' & E0 & B0); [apply window_cos_sq; lia|].
  destruct (crossing_gap_small (sample_angle 7200 2427) true)
    as (g1' & E1 & B1); [apply window_cos_sq; lia|].
  destruct (crossing_gap_small (sample_angle 7200 4770) false)
    as (g2' & E2 & B2); [apply window_cos_sq; lia|].
  destruct (crossing_gap_small (sample_angle 7200 6027) true)
    as (g3' & E3 & B3); [apply window_cos_sq; lia|].
  rewrite H0 in E0. rewrite H1 in E1. rewrite H2 in E2. rewrite H3 in E3.
  injection E0 as <-. injection E1 as <-.
  injection E2 as <-. injection E3 as <-.
  exists g0, g1, g2, g3. split; [|exact Hg]. repeat split; lra.
Qed.

(** Ring A of the default run: no arc is discarded. *)
Lemma default_a_segments (g1 g3 : R) :
  0 < g1 <= 0.48 -> 0 < g3 <= 0.48 ->
  exists a_segs,
    a_segments
      [sample_crossing 7200 1170; sample_crossing 7200 2427;
       sample_crossing 7200 4770; sample_crossing 7200 6027]
      (<[3%Z := g3]> (<[1%Z := g1]> ∅)) = Ok a_segs
    /\ map snd a_segs = [FRONT; BACK; FRONT; BACK].
Proof.
  intros B1 B3. unfold a_segments. cbn [map fst sample_crossing].
  rewrite !normalize_angle_id by (apply sample_angle_range; lia).
  pose proof PI_estimate as [Hl Hu].
  eexists. split.
  - apply ring_segments_ascending;
      try (apply sample_angle_mono; lia);
      gap_lookup; rewrite !sample_angle_7200; lra.
  - reflexivity.
Qed.

(** Ring B of the default run: the normalised parameters ascend with the
    crossings, and no arc is discarded. *)
Lemma default_b_segments (g0 g2 : R) :
  0 < g0 <= 0.48 -> 0 < g2 <= 0.48 ->
  exists b_segs,
    b_segments
      [sample_crossing 7200 1170; sample_crossing 7200 2427;
       sample_crossing 7200 4770; sample_crossing 7200 6027]
      (<[2%Z := g2]> (<[0%Z := g0]> ∅)) = Ok b_segs
    /\ map snd b_segs = [BACK; FRONT; BACK; FRONT].
Proof.
  intros B0 B2. unfold b_segments. cbn [map snd sample_crossing].
  pose proof PI_estimate as [Hl Hu].
  destruct recorded_signs as ((C0 & S0) & (C1 & S1) & (C2 & S2) & (C3 & S3)).
  destruct (recovered_parameter_bounds (sample_angle 7200 1170))
    as (T0 & _); [apply window_cos_sq; lia|].
  destruct (recovered_parameter_bounds (sample_angle 7200 2427))
    as (_ & T1 & _); [apply window_cos_sq; lia|].
  destruct (recovered_parameter_bounds (sample_angle 7200 4770))
    as (_ & _ & T2 & _); [apply window_cos_sq; lia|].
  destruct (recovered_parameter_bounds (sample_angle 7200 6027))
    as (_ & _ & _ & T3); [apply window_cos_sq; lia|].
  specialize (T0 C0 S0). specialize (T1 C1 S1).
  specialize (T2 C2 S2). specialize (T3 C3 S3).
  set (tb0 := atan2 _ _) in *.
  set (tb1 := atan2 (A_RY * sin (sample_angle 7200 2427) / B_RY) _) in *.
  set (tb2 := atan2 (A_RY * sin (sample_angle 7200 4770) / B_RY) _) in *.
  set (tb3 := atan2 (A_RY * sin (sample_angle 7200 6027) / B_RY) _) in *.
  rewrite (normalize_angle_id tb0), (normalize_angle_id tb1) by lra.
  rewrite (normalize_angle_negative tb2), (normalize_angle_negative tb3)
    by lra.
  eexists. split.
  - apply ring_segments_ascending; gap_lookup; lra.
  - reflexivity.
Qed.

Lemma map_fst_insert_by (x : Z * string) (l : list (Z * string)) :
  map fst (insert_by rank_ltb x l) = insert_by Z.ltb (fst x) (map fst l).
Proof.
  induction l as [|y l IH]; [reflexivity|].
  cbn [insert_by map]. unfold rank_ltb at 1.
  destruct (fst y <? fst x)%Z; cbn [map]; [rewrite IH|]; reflexivity.
Qed.

(** Sorting the shapes by rank sorts their ranks. *)
Lemma map_fst_stable_sort (l : list (Z * string)) :
  map fst (stable_sort rank_ltb l) = stable_sort Z.ltb (map fst l).
Proof.
  induction l as [|x l IH]; [reflexivity|].
  cbn [stable_sort map]. rewrite map_fst_insert_by, IH. reflexivity.
Qed.

(** X12. The default run to its end: the four gap half-angles leave every
    arc proper, so each ring keeps its four segments, of ranks front, back,
    front, back on ring A and back, front, back, front on ring B, and the
    document returned has eight path lines, the four of back rank first,
    between its header and its two closing lines. *)
Theorem default_run_eight_shapes :
  exists gaps a_segs b_segs paths,
    gap_halves find_crossings = Ok gaps
    /\ a_segments find_crossings (fst gaps) = Ok a_segs
    /\ b_segments find_crossings (snd gaps) = Ok b_segs
    /\ map snd a_segs = [FRONT; BACK; FRONT; BACK]
    /\ map snd b_segs = [BACK; FRONT; BACK; FRONT]
    /\ all_paths a_segs b_segs = Ok paths
    /\ map fst paths
       = [BACK; BACK; BACK; BACK; FRONT; FRONT; FRONT; FRONT]
    /\ generate_svg = Ok (join nl (svg_lines paths))
    /\ length (svg_lines paths) = 11%nat.
Proof.
  destruct default_gaps as (g0 & g1 & g2 & g3 & (B0 & B1 & B2 & B3) & Hg).
  destruct (default_a_segments g1 g3 B1 B3) as (sa & Hsa & Ra).
  destruct (default_b_segments g0 g2 B0 B2) as (sb & Hsb & Rb).
  rewrite <- find_crossings_eq in Hsa, Hsb.
  destruct (all_paths_eq sa sb) as (ps & Hps & Hranks).
  assert (Hsorted : map fst (stable_sort rank_ltb ps)
                    = [BACK; BACK; BACK; BACK; FRONT; FRONT; FRONT; FRONT]).
  { rewrite map_fst_stable_sort, Hranks, map_app.
    unfold segment in *. rewrite Ra, Rb. reflexivity. }
  eexists _, sa, sb, (stable_sort rank_ltb ps).
  split; [exact Hg|]. cbn [fst snd].
  split; [exact Hsa|]. split; [exact Hsb|].
  split; [exact Ra|]. split; [exact Rb|].
  split; [exact Hps|]. split; [exact Hsorted|]. split.
  - unfold generate_svg, generate_svg_from.
    rewrite find_crossings_length. cbn [Z.of_nat].
    change (negb (Z.pos (Pos.of_succ_nat 3) =? 4)%Z) with false. cbv iota.
    rewrite Hg. cbn [bind fst snd].
    rewrite Hsa. cbn [bind]. rewrite Hsb. cbn [bind].
    rewrite Hps. reflexivity.
  - unfold svg_lines. rewrite !length_app, length_map.
    rewrite <- (length_map fst), Hsorted. reflexivity.
Qed.

(** X13. With no gap at all and four ascending angles within one
    revolution, the four arcs of a ring tile the revolution: each ends
    where the next starts, the last one a whole revolution after the start
    of the first, and their ranks alternate from the rank of a winner. *)
Theorem arcs_tile_revolution (rank : bool -> Z) (k0 k1 k2 k3 : R) :
  k0 < k1 -> k1 < k2 -> k2 < k3 -> k3 < k0 + 2 * PI ->
  ring_segments rank [k0; k1; k2; k3] ∅
  = Ok [(k0, k1, rank true); (k1, k2, rank false);
        (k2, k3, rank true); (k3, k0 + 2 * PI, rank false)].
Proof.
  intros H01 H12 H23 H30.
  rewrite (ring_segments_ascending rank k0 k1 k2 k3 ∅ H01 H12 H23);
    gap_lookup; try assumption.
  reflexivity.
Qed.

Lemma arcs_tile_revolution_witness :
  ring_segments a_rank [0; 1; 2; 3] ∅
  = Ok [(0, 1, a_rank true); (1, 2, a_rank false);
        (2, 3, a_rank true); (3, 0 + 2 * PI, a_rank false)].
Proof.
  apply (arcs_tile_revolution a_rank 0 1 2 3); try lra.
  pose proof PI_estimate. lra.
Defined.

(** X14. When the tangents at a crossing make an angle of 30 degrees or
    more, that is when the square of the dot product of the unit tangents
    is at most 3/4, the gap half-angle is positive and at most 0.48,
    whichever band is under. *)
Theorem gap_half_wide_angle (ta tb : R) (under_is_a : bool)
    (tA tB : R * R) :
  ellipse_tangent A_RX A_RY ta = Ok tA ->
  ellipse_tangent B_RX B_RY tb = Ok tB ->
  (fst tA * fst tB + snd tA * snd tB)
  * (fst tA * fst tB + snd tA * snd tB) <= 0.75 ->
  exists g, crossing_gap_half ta tb under_is_a = Ok g /\ 0 < g <= 0.48.
Proof.
  intros HA HB Hd.
  destruct (under_speed_lower ta tb under_is_a) as (speed & Hs & Hlo).
  eexists. split.
  - apply (crossing_gap_half_eq ta tb under_is_a tA tB speed HA HB Hs). lra.
  - cbv zeta. apply gap_value_small; [|exact Hlo].
    apply (sin_acos_lower _ Hd).
Qed.

Lemma gap_half_wide_angle_witness :
  exists g, crossing_gap_half 0 (PI / 2) true = Ok g /\ 0 < g <= 0.48.
Proof.
  apply (gap_half_wide_angle 0 (PI / 2) true (0, 1) (-1, 0)
           tangent_A_0 tangent_B_PI2).
  cbn [fst snd]. lra.
Defined.

(** ** Rings and documents for any four crossings *)

Lemma segments_loop_count (rank : bool -> Z) (cross_angles : list R)
    (sorted : list Z) (gaps : gmap Z R) (l : list Z)
    (acc segs : list segment) :
  foldM (segment_step rank cross_angles sorted gaps) l acc = Ok segs ->
  (length segs <= length acc + length l)%nat
  /\ (Forall (fun s => exists top, snd s = rank top) acc ->
      Forall (fun s => exists top, snd s = rank top) segs).
Proof.
  revert acc. induction l as [|idx l IH]; intros acc H.
  - injection H as <-. split; [simpl; lia | auto].
  - cbn [foldM] in H. apply bind_Ok in H as (acc' & Hstep & H).
    apply IH in H as [Hlen Hrank].
    apply segment_step_inv in Hstep
      as (ci & s & e & _ & [[_ ->]|[_ (top & _ & ->)]]).
    + split; [simpl; lia | exact Hrank].
    + rewrite length_app in Hlen. split; [simpl in *; lia|].
      intros Hacc. apply Hrank, Forall_app. split; [exact Hacc|].
      constructor; [exists top; reflexivity | constructor].
Qed.

Lemma ring_segments_count (rank : bool -> Z) (cross_angles : list R)
    (gaps : gmap Z R) (segs : list segment) :
  ring_segments rank cross_angles gaps = Ok segs ->
  (length segs <= 4)%nat
  /\ Forall (fun s => exists top, snd s = rank top) segs.
Proof.
  unfold ring_segments. intros H.
  apply bind_Ok in H as (sorted & _ & H).
  apply segments_loop_count in H as [Hlen Hrank].
  split; [exact Hlen | apply Hrank; constructor].
Qed.

(** X15. For any four crossings the pipeline returns a document of at most
    eight shapes, each of back or of front rank: between 3 and 11 lines,
    the header, one line per shape, the closing tag and an empty last line
    that ends the text with a newline. *)
Theorem four_crossings_document (crossings : list (R * R)) :
  length crossings = 4%nat ->
  exists paths,
    generate_svg_from crossings = Ok (join nl (svg_lines paths))
    /\ (length paths <= 8)%nat
    /\ Forall (fun p => fst p = BACK \/ fst p = FRONT) paths
    /\ (3 <= length (svg_lines paths) <= 11)%nat
    /\ head (svg_lines paths) = Some svg_header
    /\ last (svg_lines paths) = Some ""%string.
Proof.
  intros Hlen. unfold generate_svg_from. rewrite Hlen. cbn [Z.of_nat].
  change (negb (Z.pos (Pos.of_succ_nat 3) =? 4)%Z) with false. cbv iota.
  destruct crossings as [|c0 [|c1 [|c2 [|c3 [|]]]]]; try discriminate.
  destruct (gap_halves_four c0 c1 c2 c3)
    as (g0 & g1 & g2 & g3 & _ & _ & _ & _ & _ & ->).
  cbn [bind fst snd].
  destruct (ring_segments_total a_rank
              (map (fun c => normalize_angle (fst c)) [c0; c1; c2; c3])
              (<[3%Z := g3]> (<[1%Z := g1]> ∅))) as (sa & Hsa);
    [reflexivity|].
  unfold a_segments. rewrite Hsa. cbn [bind].
  destruct (ring_segments_total b_rank
              (map (fun c => normalize_angle (snd c)) [c0; c1; c2; c3])
              (<[2%Z := g2]> (<[0%Z := g0]> ∅))) as (sb & Hsb);
    [reflexivity|].
  unfold b_segments. rewrite Hsb. cbn [bind].
  apply ring_segments_count in Hsa as [La Ra].
  apply ring_segments_count in Hsb as [Lb Rb].
  destruct (all_paths_eq sa sb) as (ps & -> & Hranks). cbn [bind].
  exists (stable_sort rank_ltb ps).
  assert (Hn : (length (stable_sort rank_ltb ps) <= 8)%nat).
  { rewrite stable_sort_length, <- (length_map fst), Hranks.
    rewrite length_map, length_app. lia. }
  split; [reflexivity|]. split; [exact Hn|]. split; [|split; [|split]].
  - apply Forall_forall. intros p Hp.
    apply list_elem_of_In in Hp.
    apply (Permutation_in _ (stable_sort_perm rank_ltb ps)) in Hp.
    apply (in_map fst) in Hp. rewrite Hranks, map_app in Hp.
    apply in_app_or in Hp as [Hp|Hp];
      apply in_map_iff in Hp as (s & Hs & Hin);
      apply list_elem_of_In in Hin.
    + rewrite Forall_forall in Ra. destruct (Ra s Hin) as ([|] & Htop);
        rewrite <- Hs, Htop; [right | left]; reflexivity.
    + rewrite Forall_forall in Rb. destruct (Rb s Hin) as ([|] & Htop);
        rewrite <- Hs, Htop; [left | right]; reflexivity.
  - unfold svg_lines. rewrite !length_app, length_map. simpl. lia.
  - reflexivity.
  - unfold svg_lines. rewrite !app_assoc. apply last_snoc.
Qed.

Lemma four_crossings_document_witness :
  exists paths,
    generate_svg_from [(0, 0); (1, 1); (2, 2); (3, 3)]
    = Ok (join nl (svg_lines paths))
    /\ (length paths <= 8)%nat.
Proof.
  destruct (four_crossings_document [(0, 0); (1, 1); (2, 2); (3, 3)])
    as (paths & Hdoc & Hlen & _); [reflexivity|].
  exists paths. split; [exact Hdoc | exact Hlen].
Defined.

(** X16. The default rings cross once in each quadrant: crossing number k
    has its parameter on A, and its normalised parameter on B, in quadrant
    number k, and the point of B at its second parameter is within 0.02 of
    the point of A at its first, in each coordinate. *)
Theorem crossings_one_per_quadrant :
  Forall2 (fun k c =>
             let q := IZR k * (PI / 2) in
             q < fst c < q + PI / 2
             /\ q < normalize_angle (snd c) < q + PI / 2
             /\ Rabs (B_RX * cos (snd c) - A_RX * cos (fst c)) <= 0.02
             /\ Rabs (B_RY * sin (snd c) - A_RY * sin (fst c)) <= 0.02)
          [0; 1; 2; 3]%Z find_crossings.
Proof.
  rewrite find_crossings_eq.
  pose proof PI_estimate as [Hl Hu].
  destruct recorded_signs as ((C0 & S0) & (C1 & S1) & (C2 & S2) & (C3 & S3)).
  destruct (recovered_parameter_bounds (sample_angle 7200 1170))
    as (T0 & _); [apply window_cos_sq; lia|].
  destruct (recovered_parameter_bounds (sample_angle 7200 2427))
    as (_ & T1 & _); [apply window_cos_sq; lia|].
  destruct (recovered_parameter_bounds (sample_angle 7200 4770))
    as (_ & _ & T2 & _); [apply window_cos_sq; lia|].
  destruct (recovered_parameter_bounds (sample_angle 7200 6027))
    as (_ & _ & _ & T3); [apply window_cos_sq; lia|].
  specialize (T0 C0 S0). specialize (T1 C1 S1).
  specialize (T2 C2 S2). specialize (T3 C3 S3).
  cbv zeta in T0, T1, T2, T3.
  constructor; [|constructor; [|constructor; [|constructor; [|constructor]]]];
    cbn [fst snd sample_crossing]; cbv zeta.
  - set (ta := sample_angle 7200 1170) in *.
    assert (Hta : ta = PI * 1170 / 3600) by apply sample_angle_7200.
    set (tb := atan2 _ _) in *.
    rewrite normalize_angle_id by lra.
    split; [lra|]. split; [lra|].
    apply close_on_B, window_on_B. lia.
  - set (ta := sample_angle 7200 2427) in *.
    assert (Hta : ta = PI * 2427 / 3600) by apply sample_angle_7200.
    set (tb := atan2 _ _) in *.
    rewrite normalize_angle_id by lra.
    split; [lra|]. split; [lra|].
    apply close_on_B, window_on_B. lia.
  - set (ta := sample_angle 7200 4770) in *.
    assert (Hta : ta = PI * 4770 / 3600) by apply sample_angle_7200.
    set (tb := atan2 _ _) in *.
    rewrite normalize_angle_negative by lra.
    split; [lra|]. split; [lra|].
    apply close_on_B, window_on_B. lia.
  - set (ta := sample_angle 7200 6027) in *.
    assert (Hta : ta = PI * 6027 / 3600) by apply sample_angle_7200.
    set (tb := atan2 _ _) in *.
    rewrite normalize_angle_negative by lra.
    split; [lra|]. split; [lra|].
    apply close_on_B, window_on_B. lia.
Qed.

(** X17. The outlines stay on the canvas: for a band whose centre-line
    radii are at most 9, as those of both rings are, every point of the
    outer walk and of the inner walk of an arc, whatever its two
    parameters, has both coordinates between 1.9 and 22.1, so within the
    24 by 24 canvas. *)
Theorem outline_within_canvas (rx ry t_from t_to : R) (pts : list (R * R)) :
  0 <= rx <= 9 -> 0 <= ry <= 9 ->
  arc_points CX CY (rx + THICKNESS / 2) (ry + THICKNESS / 2)
    t_from t_to ARC_SAMPLES = Ok pts
  \/ arc_points CX CY (rx - THICKNESS / 2) (ry - THICKNESS / 2)
       t_from t_to ARC_SAMPLES = Ok pts ->
  Forall (fun p => (1.9 <= fst p <= 22.1 /\ 1.9 <= snd p <= 22.1)
                   /\ (0 <= fst p <= IZR SIZE /\ 0 <= snd p <= IZR SIZE))
         pts.
Proof.
  intros Hx Hy Hpts.
  assert (Hin : exists ox oy,
             Rabs ox <= 10.1 /\ Rabs oy <= 10.1
             /\ arc_points CX CY ox oy t_from t_to ARC_SAMPLES = Ok pts).
  { unfold THICKNESS in Hpts. destruct Hpts as [H|H]; eexists _, _;
      (split; [|split; [|exact H]]); apply Rabs_le; lra. }
  destruct Hin as (ox & oy & Hox & Hoy & H).
  assert (Hn : ARC_SAMPLES <> 0%Z) by (unfold ARC_SAMPLES; lia).
  revert Hn H. generalize ARC_SAMPLES. intros n Hn H.
  rewrite arc_points_eq in H by exact Hn.
  injection H as <-.
  apply Forall_forall. intros p Hp.
  apply list_elem_of_In, in_map_iff in Hp as (i & <- & _).
  cbn [fst snd].
  set (t := t_from + (t_to - t_from) * IZR i / IZR n).
  assert (Hc : Rabs (ox * cos t) <= 10.1).
  { rewrite Rabs_mult. pose proof (Rabs_pos ox).
    assert (Rabs (cos t) <= 1) by (apply Rabs_le, COS_bound).
    pose proof (Rabs_pos (cos t)). nra. }
  assert (Hs : Rabs (oy * sin t) <= 10.1).
  { rewrite Rabs_mult. pose proof (Rabs_pos oy).
    assert (Rabs (sin t) <= 1) by (apply Rabs_le, SIN_bound).
    pose proof (Rabs_pos (sin t)). nra. }
  unfold Rabs in Hc, Hs.
  destruct (Rcase_abs (ox * cos t)), (Rcase_abs (oy * sin t));
    unfold CX, CY, SIZE; repeat split; lra.
Qed.

Lemma outline_within_canvas_witness :
  exists pts,
    arc_points CX CY (A_RX + THICKNESS / 2) (A_RY + THICKNESS / 2)
      0 1 ARC_SAMPLES = Ok pts
    /\ Forall (fun p => (1.9 <= fst p <= 22.1 /\ 1.9 <= snd p <= 22.1)
                        /\ (0 <= fst p <= IZR SIZE /\ 0 <= snd p <= IZR SIZE))
              pts.
Proof.
  destruct (arc_points_total CX CY (A_RX + THICKNESS / 2)
              (A_RY + THICKNESS / 2) 0 1 ARC_SAMPLES) as (pts & Hpts & _);
    [discriminate|].
  exists pts. split; [exact Hpts|].
  apply (outline_within_canvas A_RX A_RY 0 1 pts);
    [unfold A_RX; lra | unfold A_RY; lra | left; exact Hpts].
Defined.
